(** * WPE dereverberation (nt/speech_enhancement/wpe.py)

    A shallow embedding of the single-channel and multichannel Weighted
    Prediction Error routines and of the settings-file pass of [dereverb],
    together with the properties the specification states about them.

    Conventions.
    - A numpy array is its shape together with the element found at every
      index ([array2], [array3], [array4]); a view (slice, transpose) is a
      change of the index map, a write in place is a functional update.
    - Python exceptions are values of [exn]; a function that may raise
      returns a [result].
    - The arithmetic of numpy scalars (complex and real floating point) is
      kept abstract in the class [Scalars]: nothing is assumed about it
      unless a theorem says so.  [GaussZ] is a concrete interpretation
      used to run the definitions on examples. *)

From Stdlib Require Import List ZArith Lia Bool Arith PeanoNat String Ascii.
From Stdlib Require Import DecimalString.
From Stdlib Require Reals Lra.
Import ListNotations.

(** ** Exceptions and results *)

Inductive exn : Type :=
| ValueError
| IndexError
| LinAlgError
| UnboundLocalError
| AssertionError.

Definition result (A : Type) : Type := (exn + A)%type.

Definition ret {A : Type} (a : A) : result A := inr a.

Definition raise {A : Type} (e : exn) : result A := inl e.

Definition bind {A B : Type} (m : result A) (k : A -> result B) : result B :=
  match m with
  | inl e => inl e
  | inr a => k a
  end.

Notation "x <- m ;; k" := (bind m (fun x => k))
  (at level 61, m at next level, right associativity).
Notation "' p <- m ;; k" := (bind m (fun p => k))
  (at level 61, p pattern, m at next level, right associativity).

(** [range(a, b)] *)
Definition range (a b : nat) : list nat := seq a (b - a).

(** [for i in xs: s = body(i, s)], stopping at the first exception. *)
Fixpoint for_ {St : Type} (xs : list nat) (body : nat -> St -> result St)
    (s : St) : result St :=
  match xs with
  | [] => ret s
  | i :: xs' => s' <- body i s ;; for_ xs' body s'
  end.

(** [assert b] *)
Definition assert_ (b : bool) : result unit :=
  if b then ret tt else raise AssertionError.

(** ** Scalars and the numpy routines taken from outside the module *)

Class Scalars : Type := {
  C : Type;                      (* complex entries *)
  R : Type;                      (* real entries *)
  c0 : C;
  cadd : C -> C -> C;
  csub : C -> C -> C;
  cmul : C -> C -> C;
  cconj : C -> C;
  cabs : C -> R;                 (* np.abs *)
  rsqrt : R -> R;                (* np.sqrt *)
  cdivr : C -> R -> C;           (* complex / real *)
  rleb : R -> R -> bool          (* <= on reals *)
}.

(** [np.linalg.solve] and [np.linalg.inv] on an n x n system ([None] is
    numpy's LinAlgError), and [scaled_full_correlation_matrix] of
    nt.utils.math_ops, which is imported by the module but defined
    elsewhere: on an (L, N, T) signal it yields an (L, N, N) correlation
    matrix and an (L, T) power, or raises. *)
Class Linalg (S : Scalars) : Type := {
  solve : nat -> (nat -> nat -> C) -> (nat -> C) -> option (nat -> C);
  inv : nat -> (nat -> nat -> C) -> option (nat -> nat -> C);
  scaled_full_correlation_matrix :
    nat -> nat -> nat -> (nat -> nat -> nat -> C) ->
    result ((nat -> nat -> nat -> C) * (nat -> nat -> R))
}.

(** ** Arrays *)

Record array2 (A : Type) : Type := Array2 {
  rows : nat;
  cols : nat;
  get2 : nat -> nat -> A
}.
Arguments Array2 {A} _ _ _.
Arguments rows {A} _.
Arguments cols {A} _.
Arguments get2 {A} _ _ _.

Record array3 (A : Type) : Type := Array3 {
  len0 : nat;
  len1 : nat;
  len2 : nat;
  get3 : nat -> nat -> nat -> A
}.
Arguments Array3 {A} _ _ _ _.
Arguments len0 {A} _.
Arguments len1 {A} _.
Arguments len2 {A} _.
Arguments get3 {A} _ _ _ _.

Record array4 (A : Type) : Type := Array4 {
  ext0 : nat;
  ext1 : nat;
  ext2 : nat;
  ext3 : nat;
  get4 : nat -> nat -> nat -> nat -> A
}.
Arguments Array4 {A} _ _ _ _ _.
Arguments ext0 {A} _.
Arguments ext1 {A} _.
Arguments ext2 {A} _.
Arguments ext3 {A} _.
Arguments get4 {A} _ _ _ _ _.

Definition shape2 {A : Type} (a : array2 A) : nat * nat := (rows a, cols a).

Definition shape3 {A : Type} (a : array3 A) : nat * nat * nat :=
  (len0 a, len1 a, len2 a).

Definition shape4 {A : Type} (a : array4 A) : nat * nat * nat * nat :=
  (ext0 a, ext1 a, ext2 a, ext3 a).

(** Length of the common axis of two operands under numpy broadcasting. *)
Definition broadcast (a b : nat) : result nat :=
  if a =? b then ret a
  else if a =? 1 then ret b
  else if b =? 1 then ret a
  else raise ValueError.

(** Index into an axis of length [n] that may be broadcast (length 1). *)
Definition bidx (n i : nat) : nat := if n =? 1 then 0 else i.

(** A Python index [i] into an axis of length [n]: negative indices count
    from the end, anything outside [-n, n) raises IndexError. *)
Definition py_index (n : nat) (i : Z) : result nat :=
  if (0 <=? i)%Z && (i <? Z.of_nat n)%Z then ret (Z.to_nat i)
  else if (- Z.of_nat n <=? i)%Z && (i <? 0)%Z then ret (Z.to_nat (i + Z.of_nat n))
  else raise IndexError.

(** A Python slice bound [i] on an axis of length [n]: negative bounds
    count from the end and the result is clipped to [0, n]. *)
Definition py_bound (n : nat) (i : Z) : nat :=
  if (i <? 0)%Z then Z.to_nat (Z.max 0 (i + Z.of_nat n))
  else Nat.min (Z.to_nat i) n.

Section WPE.

Context {S : Scalars} {LA : Linalg S}.

(** Sum of [f i] for [i] in [xs], accumulated from zero in list order. *)
Definition csum_over (xs : list nat) (f : nat -> C) : C :=
  fold_left (fun acc i => cadd acc (f i)) xs c0.

(** Sum of [f 0 .. f (n-1)]: the contraction of one axis by [einsum],
    [dot] or [np.sum]. *)
Definition csum (n : nat) (f : nat -> C) : C := csum_over (seq 0 n) f.

(** [np.maximum] on reals. *)
Definition maximum (x y : R) : R := if rleb y x then x else y.

(** [np.maximum(np.abs(X * X.conj()), epsilon)] *)
Definition power_floor (epsilon : R) (X : nat -> nat -> C) : nat -> nat -> R :=
  fun t f => maximum (cabs (cmul (X t f) (cconj (X t f)))) epsilon.

(** Modelled from the spec: [segment_axis] of nt.utils.numpy_utils is
    imported by the module but defined elsewhere.  Section 4.2 of the
    specification describes it: the signal of [T] frames is cut along
    time into overlapping segments of [length] frames, consecutive
    segments sharing [overlap] frames.  The result has shape
    (count, length, F); entry (s, d, f) is frame [s * hop + d] of bin
    [f]. *)
Definition segment_axis (a : nat -> nat -> C) (T length overlap : nat)
  : nat * (nat -> nat -> nat -> C) :=
  let hop := length - overlap in
  (if T <? length then 0 else (T - length) / hop + 1,
   fun s d f => a (s * hop + d) f).

(** One pass of the loop body of [wpe] (lines 97-120).  The state is
    the pair (power_spectrum, dereverberated) of the enclosing function.
    [segment_axis(...).T[..., :-delay - 1]] has shape (F, order, W): the
    transpose reverses the axes and the slice drops the last [delay + 1]
    windows. *)
Definition wpe_iteration (Y : array2 C) (epsilon : R) (order delay : nat)
    (st : (nat -> nat -> R) * (nat -> nat -> C))
  : result ((nat -> nat -> R) * (nat -> nat -> C)) :=
  let T := rows Y in
  let F := cols Y in
  let power_spectrum := fst st in
  let dereverberated := snd st in
  let regression_coefficient0 : nat -> nat -> C := fun _ _ => c0 in
  let Y_norm := fun t f => cdivr (get2 Y t f) (rsqrt (power_spectrum t f)) in
  let seg := segment_axis (get2 Y) T order (order - 1) in
  let W := fst seg - (delay + 1) in
  let Y_windowed := fun f d t => snd seg t d f in
  let segn := segment_axis Y_norm T order (order - 1) in
  let Y_windowed_norm := fun f d t => snd segn t d f in
  (* einsum '...dt,...et->...de' *)
  let correlation_matrix := fun f d e =>
    csum W (fun t => cmul (Y_windowed_norm f d t)
                          (cconj (Y_windowed_norm f e t))) in
  (* Y_norm[order + delay:, None, :].T has shape (F, 1, T') *)
  let T' := T - (order + delay) in
  Wc <- broadcast W T' ;;
  let cross_correlation_vector := fun f d =>
    csum Wc (fun t => cmul (Y_windowed_norm f d (bidx W t))
                           (cconj (Y_norm (order + delay + bidx T' t) f))) in
  (* for f in range(F): regression_coefficient[f, :] = solve(...) *)
  regression_coefficient <-
    for_ (range 0 F)
      (fun f rc =>
         match solve order (correlation_matrix f) (cross_correlation_vector f) with
         | Some c => ret (fun f' d => if f' =? f then c d else rc f' d)
         | None => raise LinAlgError
         end)
      regression_coefficient0 ;;
  (* einsum 'ab,abc->ac', transposed: shape (W, F) *)
  let regression_signal := fun t f =>
    csum order (fun b => cmul (cconj (regression_coefficient f b))
                              (Y_windowed f b t)) in
  (* dereverberated[order + delay:, :] = Y[order + delay:, :] - regression_signal:
     the difference has Wd rows and is stored into T' rows *)
  Wd <- broadcast T' W ;;
  if (Wd =? T') || (Wd =? 1) then
    let dereverberated' := fun t f =>
      if (order + delay <=? t) && (t <? T) then
        let i := t - (order + delay) in
        csub (get2 Y (order + delay + bidx T' (bidx Wd i)) f)
             (regression_signal (bidx W (bidx Wd i)) f)
      else dereverberated t f in
    ret (power_floor epsilon dereverberated', dereverberated')
  else raise ValueError.

(** The state of [wpe] after [k] passes of its loop, from the initial
    [power_spectrum] of line 93 and [dereverberated = np.zeros_like(Y)]
    of line 94. *)
Definition wpe_loop (Y : array2 C) (epsilon : R) (order delay k : nat)
  : result ((nat -> nat -> R) * (nat -> nat -> C)) :=
  for_ (range 0 k) (fun _ st => wpe_iteration Y epsilon order delay st)
       (power_floor epsilon (get2 Y), fun _ _ => c0).

(** [wpe(Y, epsilon, order, delay, iterations)] (lines 81-122). *)
Definition wpe (Y : array2 C) (epsilon : R) (order delay iterations : nat)
  : result (array2 C) :=
  st <- wpe_loop Y epsilon order delay iterations ;;
  ret (Array2 (rows Y) (cols Y) (snd st)).

End WPE.

(** ** The multichannel routines *)

Section Multichannel.

Context {S : Scalars} {LA : Linalg S}.

(** [G_hat[l, k, :, :].conj().T.dot(y[l, :, s])]: a vector given by its
    length and its entries.  [G_hat[l, k]] must exist, and [dot] needs
    the inner lengths to agree. *)
Definition tap_prediction (y : array3 C) (G_hat : array4 C) (l k s : nat)
  : result (nat * (nat -> C)) :=
  if (l <? ext0 G_hat) && (k <? ext1 G_hat) then
    if ext2 G_hat =? len1 y then
      ret (ext3 G_hat,
           fun n => csum (len1 y)
                      (fun m => cmul (cconj (get4 G_hat l k m n)) (get3 y l m s)))
    else raise ValueError
  else raise IndexError.

(** [x_hat[l, :, t] -= w] on an array with [N] channels. *)
Definition isub_frame (x_hat : nat -> nat -> nat -> C) (N l t : nat)
    (w : nat * (nat -> C)) : result (nat -> nat -> nat -> C) :=
  if (fst w =? N) || (fst w =? 1) then
    ret (fun l' n t' =>
           if (l' =? l) && (t' =? t)
           then csub (x_hat l' n t') (snd w (bidx (fst w) n))
           else x_hat l' n t')
  else raise ValueError.

(** [_dereverberate(y, G_hat, K, Delta)] (lines 128-136). *)
Definition _dereverberate (y : array3 C) (G_hat : array4 C) (K Delta : nat)
  : result (array3 C) :=
  let L := len0 y in
  let N := len1 y in
  let T := len2 y in
  x_hat <-
    for_ (range 0 L)
      (fun l x_hat =>
         for_ (range (Delta + K) T)
           (fun t x_hat =>
              for_ (range Delta (Delta + K))
                (fun tau x_hat =>
                   w <- tap_prediction y G_hat l (tau - Delta) (t - tau) ;;
                   isub_frame x_hat N l t w)
                x_hat)
           x_hat)
      (get3 y) ;;
  ret (Array3 L N T x_hat).

(** An operand axis of length [r] fits a target axis of length [t] of an
    in-place operation when it is equal or can be broadcast. *)
Definition fits (r t : nat) : bool := (r =? t) || (r =? 1).

(** The body of the loop of [_dereverberate_vectorized] (lines 142-144):
    [x_hat[:, :, K+Delta:] -= np.einsum('abc,abe->ace', ...)]. *)
Definition vectorized_step (y : array3 C) (G_hat : array4 C) (K Delta : nat)
    (tau : nat) (x_hat : nat -> nat -> nat -> C)
  : result (nat -> nat -> nat -> C) :=
  let L := len0 y in
  let N := len1 y in
  let T := len2 y in
  (* G_hat[:, tau - Delta, :, :] *)
  if tau - Delta <? ext1 G_hat then
    (* y[..., K+Delta-tau:-tau] *)
    let start := py_bound T (Z.of_nat K + Z.of_nat Delta - Z.of_nat tau) in
    let stop := py_bound T (- Z.of_nat tau) in
    let E := stop - start in
    (* einsum 'abc,abe->ace' *)
    A <- broadcast (ext0 G_hat) L ;;
    B <- broadcast (ext2 G_hat) N ;;
    let update := fun a c e =>
      csum B (fun b =>
        cmul (cconj (get4 G_hat (bidx (ext0 G_hat) a) (tau - Delta)
                                (bidx (ext2 G_hat) b) c))
             (get3 y (bidx L a) (bidx N b) (start + e))) in
    (* x_hat[:, :, K+Delta:] -= update *)
    let first := py_bound T (Z.of_nat K + Z.of_nat Delta) in
    if fits A L && fits (ext3 G_hat) N && fits E (T - first) then
      ret (fun l n t =>
             if (first <=? t) && (t <? T)
             then csub (x_hat l n t)
                       (update (bidx A l) (bidx (ext3 G_hat) n)
                               (bidx E (t - first)))
             else x_hat l n t)
    else raise ValueError
  else raise IndexError.

(** [_dereverberate_vectorized(y, G_hat, K, Delta)] (lines 139-145). *)
Definition _dereverberate_vectorized (y : array3 C) (G_hat : array4 C)
    (K Delta : nat) : result (array3 C) :=
  x_hat <- for_ (range Delta (Delta + K)) (vectorized_step y G_hat K Delta)
                (get3 y) ;;
  ret (Array3 (len0 y) (len1 y) (len2 y) x_hat).

(** [_get_spatial_correlation_matrix_inverse(y)] (lines 148-161). *)
Definition _get_spatial_correlation_matrix_inverse (y : array3 C)
  : result (array4 C) :=
  let L := len0 y in
  let N := len1 y in
  let T := len2 y in
  cp <- scaled_full_correlation_matrix L N T (get3 y) ;;
  let correlation_matrix := fst cp in
  let power := snd cp in
  inverse <-
    for_ (range 0 L)
      (fun l inverse =>
         match inv N (correlation_matrix l) with
         | Some m => ret (fun l' a b => if l' =? l then m a b else inverse l' a b)
         | None => raise LinAlgError
         end)
      (fun _ _ _ => c0) ;;
  ret (Array4 L N N T (fun l a b t => cdivr (inverse l a b) (power l t))).

(** [_get_crazy_matrix(Y, K, Delta)] (lines 164-176).  Both subscripts
    [t-Delta-K+1] and [t-tau] can be negative, in which case Python
    counts from the end of the axis. *)
Definition _get_crazy_matrix (Y : array3 C) (K Delta : nat)
  : result (array4 C) :=
  let L := len0 Y in
  let N := len1 Y in
  let T := len2 Y in
  let Tp := (Z.of_nat T - Z.of_nat Delta - Z.of_nat K + 1)%Z in
  if (Tp <? 0)%Z then raise ValueError
  else
    let T' := Z.to_nat Tp in
    psi_bar <-
      for_ (range 0 N)
        (fun n0 psi_bar =>
           for_ (range 0 N)
             (fun n1 psi_bar =>
                for_ (range Delta (Delta + K))
                  (fun tau psi_bar =>
                     for_ (range 0 T)
                       (fun t psi_bar =>
                          src <- py_index T (Z.of_nat t - Z.of_nat tau) ;;
                          dst <- py_index T' (Z.of_nat t - Z.of_nat Delta
                                              - Z.of_nat K + 1) ;;
                          ret (fun l m n p =>
                                 if (m =? N * N * (tau - Delta) + N * n0 + n1)
                                    && (n =? n0) && (p =? dst)
                                 then get3 Y l n1 src
                                 else psi_bar l m n p))
                       psi_bar)
                  psi_bar)
             psi_bar)
        (fun _ _ _ _ => c0) ;;
    ret (Array4 L (N * N * K) N T' psi_bar).

Definition shape3_eqb (a b : nat * nat * nat) : bool :=
  let '(a0, a1, a2) := a in
  let '(b0, b1, b2) := b in
  (a0 =? b0) && (a1 =? b1) && (a2 =? b2).

Definition shape4_eqb (a b : nat * nat * nat * nat) : bool :=
  let '(a0, a1, a2, a3) := a in
  let '(b0, b1, b2, b3) := b in
  (a0 =? b0) && (a1 =? b1) && (a2 =? b2) && (a3 =? b3).

(** One pass of the loop body of [multichannel_wpe] (lines 192-230): from
    the filter of the previous pass to the new filter and the
    dereverberated signal. *)
Definition multichannel_iteration (Y : array3 C) (K Delta : nat)
    (G_hat : array4 C) : result (array4 C * array3 C) :=
  let L := len0 Y in
  let N := len1 Y in
  let T := len2 Y in
  let Tp := (Z.of_nat T - Z.of_nat Delta - Z.of_nat K + 1)%Z in
  (* Step 2 *)
  x_hat <- _dereverberate Y G_hat K Delta ;;
  _ <- assert_ (shape3_eqb (shape3 x_hat) (L, N, T)) ;;
  (* Step 3 *)
  full <- _get_spatial_correlation_matrix_inverse x_hat ;;
  let T' := py_bound (ext3 full) Tp in
  let Lambda_hat_inverse :=
    Array4 (ext0 full) (ext1 full) (ext2 full) T' (get4 full) in
  _ <- assert_ (shape4_eqb (shape4 Lambda_hat_inverse) (L, N, N, T')
                && (Z.of_nat T' =? Tp)%Z) ;;
  (* Step 4 *)
  psi_bar <- _get_crazy_matrix Y K Delta ;;
  _ <- assert_ (shape4_eqb (shape4 psi_bar) (L, N * N * K, N, T')) ;;
  let R_hat := fun l m p =>
    csum N (fun n => csum N (fun o => csum T' (fun t =>
      cmul (cmul (get4 psi_bar l m n t) (get4 Lambda_hat_inverse l n o t))
           (cconj (get4 psi_bar l p o t))))) in
  (* Y[:, :, K+Delta-1:] *)
  let first := py_bound T (Z.of_nat K + Z.of_nat Delta - 1) in
  Tr <- broadcast T' (T - first) ;;
  let r_hat := fun l m =>
    csum N (fun n => csum N (fun o => csum Tr (fun t =>
      cmul (cmul (get4 psi_bar l m n (bidx T' t))
                 (get4 Lambda_hat_inverse l n o (bidx T' t)))
           (get3 Y l o (first + bidx (T - first) t))))) in
  (* Step 5 *)
  g_hat <-
    for_ (range 0 L)
      (fun l g_hat =>
         match solve (N * N * K) (R_hat l) (r_hat l) with
         | Some g => ret (fun l' i => if l' =? l then g i else g_hat l' i)
         | None => raise LinAlgError
         end)
      (fun _ _ => c0) ;;
  (* g_hat.reshape(L, N, N, K).transpose((0, 3, 1, 2)) *)
  let G_hat' :=
    Array4 L K N N (fun l k a b => g_hat l ((a * N + b) * K + k)) in
  _ <- assert_ (shape4_eqb (shape4 G_hat') (L, K, N, N)) ;;
  ret (G_hat', x_hat).

(** The local variables [G_hat] and [x_hat] of [multichannel_wpe] after
    [k] passes of its loop; [x_hat] is unbound before the first pass. *)
Definition multichannel_loop (Y : array3 C) (K Delta k : nat)
  : result (array4 C * option (array3 C)) :=
  for_ (range 0 k)
    (fun _ st =>
       r <- multichannel_iteration Y K Delta (fst st) ;;
       ret (fst r, Some (snd r)))
    (Array4 (len0 Y) K (len1 Y) (len1 Y) (fun _ _ _ _ => c0), None).

(** [multichannel_wpe(Y, K, Delta, iterations)] *)
Definition multichannel_wpe (Y : array3 C) (K Delta iterations : nat)
  : result (array3 C) :=
  st <- multichannel_loop Y K Delta iterations ;;
  match snd st with
  | Some x_hat => ret x_hat
  | None => raise UnboundLocalError
  end.

End Multichannel.

(** ** The settings-file pass of [dereverb] (lines 45-61) *)

Section Settings.

Local Open Scope string_scope.

(** The newline that ends a line read from a text file. *)
Definition nl : string := String (ascii_of_nat 10) EmptyString.

(** [str(c)] for a non-negative integer. *)
Definition str (c : nat) : string := NilEmpty.string_of_uint (Nat.to_uint c).

(** [needle in hay] on strings. *)
Fixpoint contains (needle hay : string) : bool :=
  String.prefix needle hay
  || match hay with
     | EmptyString => false
     | String _ rest => contains needle rest
     end.

(** ['num_mic = ' + str(c) + ";\n"], the line written for [c] channels. *)
Definition declaration (c : nat) : string :=
  "num_mic = " ++ str c ++ ";" ++ nl.

(** The loop over the lines of the settings file: [lines] and
    [modify_settings] are the local variables of [dereverb]; the
    [break] leaves the loop with both as they are. *)
Fixpoint scan_settings (c : nat) (infile : list string) (lines : list string)
    (modify_settings : bool) : list string * bool :=
  match infile with
  | [] => (lines, modify_settings)
  | line :: rest =>
      if contains "num_mic = " line then
        if negb (contains (str c) line) then
          scan_settings c rest (lines ++ [declaration c]) true
        else (lines, modify_settings)
      else scan_settings c rest (lines ++ [line]) modify_settings
  end.

(** The lines of the settings file after [dereverb] has run on a signal
    with [c] channels: the file is written only if [modify_settings]. *)
Definition dereverb_settings (c : nat) (file : list string) : list string :=
  let r := scan_settings c file [] false in
  if snd r then fst r else file.

(** The channel count a line declares: the digits that follow
    ["num_mic = "] at the start of the line. *)
Fixpoint leading_number (acc : nat) (s : string) : nat :=
  match s with
  | String a rest =>
      let d := nat_of_ascii a in
      if ((48 <=? d) && (d <=? 57))%nat
      then leading_number (10 * acc + (d - 48))%nat rest
      else acc
  | EmptyString => acc
  end.

Definition declared_num_mic (line : string) : option nat :=
  if String.prefix "num_mic = " line
  then Some (leading_number 0%nat
               (substring 10%nat (String.length line - 10)%nat line))
  else None.

End Settings.

(** ** A concrete interpretation: Gaussian integers

    Complex entries are pairs of integers, real entries are integers;
    square roots and quotients are the integer ones.  The linear-algebra
    routines cover systems of size one, which is all the examples below
    need; the correlation estimate is the identity with unit power. *)

Module GaussZ.

Local Open Scope Z_scope.

Definition add (a b : Z * Z) : Z * Z := (fst a + fst b, snd a + snd b).

Definition sub (a b : Z * Z) : Z * Z := (fst a - fst b, snd a - snd b).

Definition mul (a b : Z * Z) : Z * Z :=
  (fst a * fst b - snd a * snd b, fst a * snd b + snd a * fst b).

Definition conj (a : Z * Z) : Z * Z := (fst a, - snd a).

Definition norm2 (a : Z * Z) : Z := fst a * fst a + snd a * snd a.

Definition divr (a : Z * Z) (r : Z) : Z * Z := (fst a / r, snd a / r).

Definition div (a b : Z * Z) : Z * Z := divr (mul a (conj b)) (norm2 b).

#[global] Instance scalars : Scalars := {|
  C := Z * Z;
  R := Z;
  c0 := (0, 0);
  cadd := add;
  csub := sub;
  cmul := mul;
  cconj := conj;
  cabs := fun a => Z.sqrt (norm2 a);
  rsqrt := Z.sqrt;
  cdivr := divr;
  rleb := Z.leb
|}.

Definition solve1 (n : nat) (A : nat -> nat -> Z * Z) (b : nat -> Z * Z)
  : option (nat -> Z * Z) :=
  match n with
  | O => Some (fun _ => (0, 0))
  | S O => if norm2 (A O O) =? 0 then None else Some (fun _ => div (b O) (A O O))
  | _ => None
  end.

Definition inv1 (n : nat) (A : nat -> nat -> Z * Z)
  : option (nat -> nat -> Z * Z) :=
  match n with
  | O => Some (fun _ _ => (0, 0))
  | S O => if norm2 (A O O) =? 0 then None else Some (fun _ _ => div (1, 0) (A O O))
  | _ => None
  end.

Definition unit_correlation (L N T : nat) (x : nat -> nat -> nat -> Z * Z)
  : result ((nat -> nat -> nat -> Z * Z) * (nat -> nat -> Z)) :=
  ret (fun _ a b => if (a =? b)%nat then (1, 0) else (0, 0),
       fun _ _ => 1).

#[global] Instance linalg : Linalg scalars := {|
  solve := solve1;
  inv := inv1;
  scaled_full_correlation_matrix := unit_correlation
|}.

(** Arrays from nested lists of real parts, and back to nested lists. *)
Definition of_rows (T F : nat) (m : list (list Z)) : array2 (@C scalars) :=
  Array2 T F (fun t f => (nth f (nth t m []) 0, 0)).

Definition of_bins (L N T : nat) (m : list (list (list Z)))
  : array3 (@C scalars) :=
  Array3 L N T (fun l n t => (nth t (nth n (nth l m []) []) 0, 0)).

Definition of_taps (L K N : nat) (m : list (list (list (list Z))))
  : array4 (@C scalars) :=
  Array4 L K N N
    (fun l k a b => (nth b (nth a (nth k (nth l m []) []) []) 0, 0)).

Definition to_rows (a : array2 (@C scalars)) : list (list (Z * Z)) :=
  map (fun t => map (fun f => get2 a t f) (seq 0 (cols a))) (seq 0 (rows a)).

Definition to_bins (a : array3 (@C scalars)) : list (list (list (Z * Z))) :=
  map (fun l => map (fun n => map (fun t => get3 a l n t) (seq 0 (len2 a)))
                    (seq 0 (len1 a)))
      (seq 0 (len0 a)).

Definition rows_of_result (r : result (array2 (@C scalars)))
  : result (list (list (Z * Z))) :=
  a <- r ;; ret (to_rows a).

Definition bins_of_result (r : result (array3 (@C scalars)))
  : result (list (list (list (Z * Z)))) :=
  a <- r ;; ret (to_bins a).

End GaussZ.

(** ** Filterbank features (paderbox/transform/module_fbank.py) *)

(** What [fbank] takes from other modules (preemphasis, STFT,
    spectrogram, numpy's matrix routines); their values are opaque, and
    those that are calls into other modules may raise. *)
Class FbankEnv : Type := {
  Signal : Type;
  Stft : Type;
  Matrix : Type;
  Number : Type;
  Window : Type;
  truthy : Number -> bool;                      (* truth value, for [or] *)
  half : Number -> Number;                      (* [x / 2] *)
  preemphasis_with_offset_compensation : Signal -> Number -> result Signal;
  stft : Signal -> nat -> nat -> Window -> nat -> bool -> result Stft;
  stft_to_spectrogram : Stft -> result Matrix;
  divide : Matrix -> nat -> Matrix;             (* [m / n] *)
  dot_transposed : Matrix -> Matrix -> Matrix;  (* [numpy.dot(a, b.T)] *)
  subtract_column_min : Matrix -> Matrix;       (* [m - numpy.min(m, axis=0)] *)
  replace_zeros : Matrix -> Matrix;             (* [numpy.where(m == 0, eps, m)] *)
  log : Matrix -> Matrix                        (* [numpy.log] *)
}.

Section Fbank.

Context {E : FbankEnv}.

(** [get_filterbanks] (lines 78-118): the first statement raises, the
    rest of the body is never reached. *)
Definition get_filterbanks (number_of_filters nfft : nat)
    (sample_rate lowfreq : Number) (highfreq : option Number)
  : result Matrix :=
  raise AssertionError.

(** [highest_frequency or sample_rate / 2] *)
Definition or_half (highest_frequency : option Number) (sample_rate : Number)
  : Number :=
  match highest_frequency with
  | Some h => if truthy h then h else half sample_rate
  | None => half sample_rate
  end.

(** [fbank] (lines 13-75). *)
Definition fbank (time_signal : Signal) (sample_rate : Number)
    (window_length stft_shift number_of_filters stft_size : nat)
    (lowest_frequency : Number) (highest_frequency : option Number)
    (preemphasis_factor : Number) (window : Window) (denoise : bool)
  : result Matrix :=
  let highest_frequency := or_half highest_frequency sample_rate in
  time_signal <-
    preemphasis_with_offset_compensation time_signal preemphasis_factor ;;
  stft_signal <-
    stft time_signal stft_size stft_shift window window_length false ;;
  spectrogram0 <- stft_to_spectrogram stft_signal ;;
  let spectrogram := divide spectrogram0 stft_size in
  filterbanks <-
    get_filterbanks number_of_filters stft_size sample_rate
      lowest_frequency (Some highest_frequency) ;;
  let feature := dot_transposed spectrogram filterbanks in
  let feature := if denoise then subtract_column_min feature else feature in
  ret (replace_zeros feature).

(** [logfbank] (lines 143-163). *)
Definition logfbank (time_signal : Signal) (sample_rate : Number)
    (window_length stft_shift number_of_filters stft_size : nat)
    (lowest_frequency : Number) (highest_frequency : option Number)
    (preemphasis_factor : Number) (window : Window) (denoise : bool)
  : result Matrix :=
  feature <-
    fbank time_signal sample_rate window_length stft_shift number_of_filters
      stft_size lowest_frequency highest_frequency preemphasis_factor window
      denoise ;;
  ret (log feature).

End Fbank.

(** A trivial environment, to run [fbank] on an example: every value is
    an integer and every outside routine returns its argument. *)
Module PlainEnv.

#[global] Instance env : FbankEnv := {|
  Signal := Z;
  Stft := Z;
  Matrix := Z;
  Number := Z;
  Window := unit;
  truthy := fun x => negb (Z.eqb x 0);
  half := fun x => Z.div x 2;
  preemphasis_with_offset_compensation := fun x _ => ret x;
  stft := fun x _ _ _ _ _ => ret x;
  stft_to_spectrogram := fun x => ret x;
  divide := fun m n => Z.div m (Z.of_nat n);
  dot_transposed := Z.mul;
  subtract_column_min := fun m => m;
  replace_zeros := fun m => m;
  log := fun m => m
|}.

End PlainEnv.

(** ** Mel scale ([hz2mel], [mel2hz] of module_fbank.py), over the
    real numbers *)

Module Mel.

Import Stdlib.Reals.Reals.
Local Open Scope R_scope.

(** [2595 * numpy.log10(1 + hz / 700.0)] *)
Definition hz2mel (hz : R) : R := 2595 * (ln (1 + hz / 700) / ln 10).

(** [700 * (10 ** (mel / 2595.0) - 1)] *)
Definition mel2hz (mel : R) : R := 700 * (Rpower 10 (mel / 2595) - 1).

End Mel.

(** ** [Dispatcher] (paderbox/utils/mapping.py) *)

Section Dispatcher.

Local Open Scope string_scope.

Context {V : Type}.

(** [repr] of a key. *)
Variable repr : string -> string.

(** A dict with string keys: its items in insertion order, keys
    distinct. *)
Definition dict : Type := list (string * V).

Definition keys (d : dict) : list string := map fst d.

(** [dict.__getitem__]: [None] is the KeyError of the base class. *)
Fixpoint dict_getitem (d : dict) (item : string) : option V :=
  match d with
  | [] => None
  | (k, v) :: d' => if String.eqb k item then Some v else dict_getitem d' item
  end.

(** [repr(self.keys())]: [dict_keys([k1, k2, ...])]. *)
Definition keys_repr (d : dict) : string :=
  "dict_keys([" ++ String.concat ", " (map repr (keys d)) ++ "])".

(** The exception [Dispatcher.__getitem__] raises, with its message. *)
Inductive dispatch_error : Type :=
| KeyError (message : string).

(** [Dispatcher.__getitem__] (lines 5-12). *)
Definition Dispatcher_getitem (d : dict) (item : string)
  : dispatch_error + V :=
  match dict_getitem d item with
  | Some v => inr v
  | None =>
      inl (KeyError ("Invalid option " ++ repr item
                     ++ ". Possible keys are " ++ keys_repr d ++ "."))
  end.

End Dispatcher.

(** A line the settings pass can leave in the file it writes: a line
    without ["num_mic = "], or the declaration for [c] channels. *)
Definition settled (c : nat) (line : string) : Prop :=
  contains "num_mic = "%string line = false \/ line = declaration c.

(** ** Quantities the properties speak about *)

Section Statements.

Context {S : Scalars}.

(** The comparison of reals is total (no value is incomparable). *)
Definition rleb_total : Prop :=
  forall x y : R, rleb x y = true \/ rleb y x = true.

(** Subtracting one term after the other is subtracting their sum. *)
Definition csub_laws : Prop :=
  (forall a : C, csub a c0 = a) /\
  (forall a b c : C, csub (csub a b) c = csub a (cadd b c)).

(** Entry [n] of [G[l, tau - Delta]^H . y[l, :, t - tau]]. *)
Definition prediction (y : array3 C) (G : array4 C) (Delta l n t tau : nat) : C :=
  csum (len1 y)
    (fun m => cmul (cconj (get4 G l (tau - Delta) m n)) (get3 y l m (t - tau))).

(** What one pass of the innermost loop of [_dereverberate] does to
    [x_hat]: the prediction of tap [tau] is subtracted at frame [t] of
    bin [l]. *)
Definition frame_update (y : array3 C) (G : array4 C) (Delta l t tau : nat)
    (x : nat -> nat -> nat -> C) : nat -> nat -> nat -> C :=
  fun l' n t' =>
    if (l' =? l) && (t' =? t)
    then csub (x l' n t') (prediction y G Delta l (bidx (len1 y) n) t tau)
    else x l' n t'.

(** All the subtractions made at frame [t] of bin [l], in loop order. *)
Definition frame_total (y : array3 C) (G : array4 C) (K Delta l n t : nat)
    (a : C) : C :=
  fold_left
    (fun acc tau => csub acc (prediction y G Delta l (bidx (len1 y) n) t tau))
    (range Delta (Delta + K)) a.

(** The loop over the frames [ts] for a fixed bin [l]. *)
Definition bin_update (y : array3 C) (G : array4 C) (K Delta l : nat)
    (ts : list nat) (x : nat -> nat -> nat -> C) : nat -> nat -> nat -> C :=
  fold_left
    (fun x0 t =>
       fold_left (fun x1 tau => frame_update y G Delta l t tau x1)
                 (range Delta (Delta + K)) x0)
    ts x.

(** The state of the loop of [wpe] in two runs: the entries inside the
    shape (T, F) agree. *)
Definition agree_state (T F : nat)
    (st st' : (nat -> nat -> R) * (nat -> nat -> C)) : Prop :=
  (forall t f, t < T -> f < F -> fst st t f = fst st' t f) /\
  (forall t f, t < T -> f < F -> snd st t f = snd st' t f).

(** [body] overwrites the entries of the region [cov] with the values
    [val] and leaves every other entry as it was. *)
Definition overwrites
    (body : (nat -> nat -> nat -> nat -> C) ->
            result (nat -> nat -> nat -> nat -> C))
    (cov : nat -> nat -> nat -> bool)
    (val : nat -> nat -> nat -> nat -> C) : Prop :=
  forall psi psi', body psi = ret psi' ->
  forall l m n p,
    psi' l m n p = if cov m n p then val l m n p else psi l m n p.

(** The entry the regressor tensor of [_get_crazy_matrix] is meant to
    hold in row [m] (tap [m / N^2], input channel [m mod N]) at column
    [p]: the observation [K - 1 - m / N^2] frames after [p]. *)
Definition regressor_entry (Y : array3 C) (K : nat) (l m n p : nat) : C :=
  get3 Y l (m mod len1 Y) (p + (K - 1) - m / (len1 Y * len1 Y)).

(** The innermost loop of [_get_crazy_matrix], over [t] for fixed [n0],
    [n1] and [tau], on an axis of [T'] columns. *)
Definition column_loop (Y : array3 C) (K Delta : nat)
    (T' n0 n1 tau : nat) (ts : list nat)
    (psi : nat -> nat -> nat -> nat -> C)
  : result (nat -> nat -> nat -> nat -> C) :=
  for_ ts
    (fun t psi_bar =>
       src <- py_index (len2 Y) (Z.of_nat t - Z.of_nat tau) ;;
       dst <- py_index T' (Z.of_nat t - Z.of_nat Delta - Z.of_nat K + 1) ;;
       ret (fun l m n p =>
              if (m =? len1 Y * len1 Y * (tau - Delta) + len1 Y * n0 + n1)
                 && (n =? n0) && (p =? dst)
              then get3 Y l n1 src
              else psi_bar l m n p))
    psi.

(** Zero is fixed by conjugation, absorbs products, and is neutral for
    sums and differences. *)
Definition zero_laws : Prop :=
  cconj c0 = c0 /\
  (forall a : C, cmul c0 a = c0) /\
  cadd c0 c0 = c0 /\
  (forall a : C, csub a c0 = a).

(** Two arrays agree: same shape, same entry at every index inside it. *)
Definition agree2 {A : Type} (X X' : array2 A) : Prop :=
  rows X = rows X' /\ cols X = cols X' /\
  forall t f, t < rows X -> f < cols X -> get2 X t f = get2 X' t f.

Definition agree3 {A : Type} (X X' : array3 A) : Prop :=
  len0 X = len0 X' /\ len1 X = len1 X' /\ len2 X = len2 X' /\
  forall l n t, l < len0 X -> n < len1 X -> t < len2 X ->
    get3 X l n t = get3 X' l n t.

Definition agree4 {A : Type} (X X' : array4 A) : Prop :=
  ext0 X = ext0 X' /\ ext1 X = ext1 X' /\ ext2 X = ext2 X' /\ ext3 X = ext3 X' /\
  forall l k a b, l < ext0 X -> k < ext1 X -> a < ext2 X -> b < ext3 X ->
    get4 X l k a b = get4 X' l k a b.

(** The regressor tensor in two runs: equal shapes, and equal entries
    in every bin of the signal. *)
Definition agree_bins {A : Type} (X X' : array4 A) : Prop :=
  shape4 X = shape4 X' /\
  forall l m n p, l < ext0 X -> get4 X l m n p = get4 X' l m n p.

(** Two calls end the same way: the same exception, or related values. *)
Definition same_outcome {A : Type} (rel : A -> A -> Prop) (r r' : result A)
  : Prop :=
  match r, r' with
  | inr a, inr a' => rel a a'
  | inl e, inl e' => e = e'
  | _, _ => False
  end.

Definition same_option {A : Type} (rel : A -> A -> Prop) (r r' : option A)
  : Prop :=
  match r, r' with
  | Some a, Some a' => rel a a'
  | None, None => True
  | _, _ => False
  end.

(** The routines taken from outside are functions of the entries of their
    arguments: on arguments that agree inside the stated shape they end
    the same way, with results that agree inside the shape. *)
Definition linalg_extensional (LA : Linalg S) : Prop :=
  (forall n A A' b b',
     (forall i j, i < n -> j < n -> A i j = A' i j) ->
     (forall i, i < n -> b i = b' i) ->
     same_option (fun x x' => forall i, i < n -> x i = x' i)
                 (solve n A b) (solve n A' b')) /\
  (forall n A A',
     (forall i j, i < n -> j < n -> A i j = A' i j) ->
     same_option (fun M M' => forall i j, i < n -> j < n -> M i j = M' i j)
                 (inv n A) (inv n A')) /\
  (forall L N T x x',
     (forall l n t, l < L -> n < N -> t < T -> x l n t = x' l n t) ->
     same_outcome
       (fun cp cp' =>
          (forall l a b, l < L -> a < N -> b < N ->
             fst cp l a b = fst cp' l a b) /\
          (forall l t, l < L -> t < T -> snd cp l t = snd cp' l t))
       (scaled_full_correlation_matrix L N T x)
       (scaled_full_correlation_matrix L N T x')).

(** The linear system one pass of [wpe] hands to [np.linalg.solve] for
    bin [f] (lines 98-110), as a function of the power estimate the
    pass starts with: [correlation_matrix[f, d, e]] sums over the
    windows left by the slice [:-delay - 1]. *)
Definition correlation_matrix (Y : array2 C) (order delay : nat)
    (power_spectrum : nat -> nat -> R) (f d e : nat) : C :=
  let T := rows Y in
  let Y_norm := fun t f => cdivr (get2 Y t f) (rsqrt (power_spectrum t f)) in
  let segn := segment_axis Y_norm T order (order - 1) in
  let W := fst segn - (delay + 1) in
  let Y_windowed_norm := fun f d t => snd segn t d f in
  csum W (fun t => cmul (Y_windowed_norm f d t)
                        (cconj (Y_windowed_norm f e t))).

(** [cross_correlation_vector[f, d]] of the same pass: window [t] is
    multiplied with the conjugate of frame [order + delay + t].  For
    [order >= 1] there are as many windows as frames from
    [order + delay] on, which is the length of the sum. *)
Definition cross_correlation_vector (Y : array2 C) (order delay : nat)
    (power_spectrum : nat -> nat -> R) (f d : nat) : C :=
  let T := rows Y in
  let Y_norm := fun t f => cdivr (get2 Y t f) (rsqrt (power_spectrum t f)) in
  let segn := segment_axis Y_norm T order (order - 1) in
  let W := fst segn - (delay + 1) in
  let Y_windowed_norm := fun f d t => snd segn t d f in
  let T' := T - (order + delay) in
  csum T' (fun t => cmul (Y_windowed_norm f d (bidx W t))
                         (cconj (Y_norm (order + delay + bidx T' t) f))).

(** The linear system one pass of [multichannel_wpe] solves for bin [l]
    (lines 205-217), from the tensor [full] returned by
    [_get_spatial_correlation_matrix_inverse] in that pass and the
    regressor tensor [psi_bar]: [R_hat[l, m, p]] contracts the sensors
    and the first [T - Delta - K + 1] frames. *)
Definition R_hat (Y : array3 C) (K Delta : nat) (full psi_bar : array4 C)
    (l m p : nat) : C :=
  let N := len1 Y in
  let T := len2 Y in
  let T' := py_bound T (Z.of_nat T - Z.of_nat Delta - Z.of_nat K + 1) in
  csum N (fun n => csum N (fun o => csum T' (fun t =>
    cmul (cmul (get4 psi_bar l m n t) (get4 full l n o t))
         (cconj (get4 psi_bar l p o t))))).

(** [r_hat[l, m]] of the same pass: the same contraction against the
    observations [Y[:, :, K+Delta-1:]]. *)
Definition r_hat (Y : array3 C) (K Delta : nat) (full psi_bar : array4 C)
    (l m : nat) : C :=
  let N := len1 Y in
  let T := len2 Y in
  let T' := py_bound T (Z.of_nat T - Z.of_nat Delta - Z.of_nat K + 1) in
  let first := py_bound T (Z.of_nat K + Z.of_nat Delta - 1) in
  csum N (fun n => csum N (fun o => csum T' (fun t =>
    cmul (cmul (get4 psi_bar l m n (bidx T' t))
               (get4 full l n o (bidx T' t)))
         (get3 Y l o (first + bidx (T - first) t))))).

End Statements.

(** * Properties *)

(** ** Loops and results *)

Section Loops.

Context {St : Type}.

Lemma bind_ret_inv {A B : Type} (m : result A) (k : A -> result B) (b : B) :
  bind m k = ret b -> exists a, m = ret a /\ k a = ret b.
Proof.
  destruct m as [e | a]; simpl; intros H.
  - discriminate H.
  - exists a. split; [reflexivity | exact H].
Qed.

Lemma bind_ret_r {A : Type} (m : result A) : bind m (fun a => ret a) = m.
Proof. destruct m; reflexivity. Qed.

Lemma for_app (xs ys : list nat) (body : nat -> St -> result St) (s : St) :
  for_ (xs ++ ys) body s = bind (for_ xs body s) (for_ ys body).
Proof.
  revert s. induction xs as [| i xs IH]; intros s; simpl.
  - reflexivity.
  - destruct (body i s) as [e | s']; simpl; [reflexivity | apply IH].
Qed.

Lemma range_succ (a b : nat) : a <= b -> range a (S b) = range a b ++ [b].
Proof.
  intros H. unfold range.
  replace (S b - a) with (S (b - a)) by lia.
  rewrite seq_S. f_equal. f_equal. lia.
Qed.

Lemma in_range (a b i : nat) : In i (range a b) <-> a <= i < b.
Proof. unfold range. rewrite in_seq. lia. Qed.

Lemma range_nodup (a b : nat) : NoDup (range a b).
Proof. apply seq_NoDup. Qed.

(** A loop all of whose passes return is a fold of the passes. *)
Lemma for_ret_fold (xs : list nat) (body : nat -> St -> result St)
    (g : nat -> St -> St) (s : St) :
  (forall i s0, In i xs -> body i s0 = ret (g i s0)) ->
  for_ xs body s = ret (fold_left (fun s0 i => g i s0) xs s).
Proof.
  revert s. induction xs as [| i xs IH]; intros s H; simpl.
  - reflexivity.
  - rewrite (H i s (or_introl eq_refl)). simpl.
    apply IH. intros j s0 Hj. apply H. right. exact Hj.
Qed.

End Loops.

Lemma bidx_lt (n i : nat) : i < n -> bidx n i = i.
Proof.
  unfold bidx. intros H. destruct (n =? 1) eqn:E; [| reflexivity].
  apply Nat.eqb_eq in E. lia.
Qed.

Lemma broadcast_same (n : nat) : broadcast n n = ret n.
Proof. unfold broadcast. rewrite Nat.eqb_refl. reflexivity. Qed.

(** Both operands of a broadcast are read inside their own axis. *)
Lemma broadcast_bidx (a b c i : nat) :
  broadcast a b = ret c -> i < c -> bidx a i < a /\ bidx b i < b.
Proof.
  unfold broadcast, bidx.
  destruct (a =? b) eqn:Eab; [apply Nat.eqb_eq in Eab | apply Nat.eqb_neq in Eab];
  destruct (a =? 1) eqn:Ea; [apply Nat.eqb_eq in Ea | apply Nat.eqb_neq in Ea
                            | apply Nat.eqb_eq in Ea | apply Nat.eqb_neq in Ea];
  destruct (b =? 1) eqn:Eb; [apply Nat.eqb_eq in Eb | apply Nat.eqb_neq in Eb
                            | apply Nat.eqb_eq in Eb | apply Nat.eqb_neq in Eb
                            | apply Nat.eqb_eq in Eb | apply Nat.eqb_neq in Eb
                            | apply Nat.eqb_eq in Eb | apply Nat.eqb_neq in Eb];
  unfold ret, raise; intros H; try discriminate H; injection H as <-; lia.
Qed.

(** ** Single-channel [wpe] *)

Section WPE_facts.

Context {S : Scalars} {LA : Linalg S}.

Variables (Y : array2 C) (epsilon : R) (order delay : nat).

Lemma wpe_loop_succ (k : nat) :
  wpe_loop Y epsilon order delay (Datatypes.S k) =
  bind (wpe_loop Y epsilon order delay k) (wpe_iteration Y epsilon order delay).
Proof.
  unfold wpe_loop. rewrite range_succ by lia. rewrite for_app.
  destruct (for_ (range 0 k) _ _) as [e | st]; simpl; [reflexivity |].
  apply bind_ret_r.
Qed.

(** A pass writes [dereverberated] from row [order + delay] on and
    recomputes [power_spectrum] from what it wrote. *)
Lemma wpe_iteration_inv (st st' : (nat -> nat -> R) * (nat -> nat -> C)) :
  wpe_iteration Y epsilon order delay st = ret st' ->
  (forall t f, t < order + delay -> snd st' t f = snd st t f) /\
  (forall t f, fst st' t f = power_floor epsilon (snd st') t f).
Proof.
  unfold wpe_iteration. intros H.
  apply bind_ret_inv in H. destruct H as (Wc & _ & H).
  apply bind_ret_inv in H. destruct H as (rc & _ & H).
  apply bind_ret_inv in H. destruct H as (Wd & _ & H).
  destruct ((Wd =? _) || (Wd =? 1)); [| discriminate H].
  injection H as <-. simpl. split; [| reflexivity].
  intros t f Ht.
  destruct (order + delay <=? t) eqn:E; [| reflexivity].
  apply Nat.leb_le in E. lia.
Qed.

(** Every pass leaves the rows before [order + delay] as [np.zeros_like]
    made them. *)
Lemma wpe_loop_leading_zero (k : nat) (st : (nat -> nat -> R) * (nat -> nat -> C)) :
  wpe_loop Y epsilon order delay k = ret st ->
  forall t f, t < order + delay -> snd st t f = c0.
Proof.
  revert st. induction k as [| k IH]; intros st H t f Ht.
  - injection H as <-. reflexivity.
  - rewrite wpe_loop_succ in H. apply bind_ret_inv in H.
    destruct H as (st0 & H0 & H1).
    apply wpe_iteration_inv in H1. destruct H1 as [H1 _].
    rewrite (H1 t f Ht). apply (IH st0 H0 t f Ht).
Qed.

(** Without a pass [wpe] returns the tensor [np.zeros_like] made. *)
Lemma wpe_no_iterations :
  wpe Y epsilon order delay 0 = ret (Array2 (rows Y) (cols Y) (fun _ _ => c0)).
Proof. reflexivity. Qed.

(** X1.  Whatever the number of iterations, a tensor returned by [wpe]
    has the shape of the input and is zero in every frame before
    [order + delay]: those rows keep the value [np.zeros_like] gave them. *)
Lemma wpe_leading_frames_zero (iterations : nat) (X : array2 C) :
  wpe Y epsilon order delay iterations = ret X ->
  shape2 X = shape2 Y /\
  forall t f, t < order + delay -> get2 X t f = c0.
Proof.
  unfold wpe. intros H. apply bind_ret_inv in H. destruct H as (st & H0 & H1).
  injection H1 as <-. split; [reflexivity |].
  simpl. apply (wpe_loop_leading_zero iterations st H0).
Qed.

End WPE_facts.

(** ** Facts about the concrete interpretation *)

Lemma GaussZ_rleb_total : @rleb_total GaussZ.scalars.
Proof.
  intros x y. simpl. destruct (Z.leb_spec x y); [left; reflexivity |].
  right. apply Z.leb_le. lia.
Qed.

Lemma GaussZ_csub_laws : @csub_laws GaussZ.scalars.
Proof.
  split.
  - intros [a b]. simpl. unfold GaussZ.sub. simpl. f_equal; lia.
  - intros [a1 a2] [b1 b2] [d1 d2]. simpl. unfold GaussZ.sub, GaussZ.add.
    simpl. f_equal; lia.
Qed.

(** ** Single-channel [wpe]: the claims *)

Section WPE_claims.

Context {S : Scalars} {LA : Linalg S}.

Lemma maximum_floor (x epsilon : R) :
  rleb_total -> rleb epsilon (maximum x epsilon) = true.
Proof.
  intros Htot. unfold maximum.
  destruct (rleb epsilon x) eqn:E; [exact E |].
  destruct (Htot epsilon epsilon) as [H | H]; exact H.
Qed.

(** C5.  Power floor.  After any number [k] of passes of the loop of
    [wpe], the power estimate the next pass divides by is, at every time
    and bin, [max(|s|^2, epsilon)] where [s] is the raw input (before the
    first pass) or the dereverberated signal of the previous pass, and it
    is never below [epsilon]. *)
Theorem wpe_power_floor (Y : array2 C) (epsilon : R) (order delay k : nat)
    (st : (nat -> nat -> R) * (nat -> nat -> C)) :
  rleb_total ->
  wpe_loop Y epsilon order delay k = ret st ->
  forall t f,
    fst st t f =
      maximum (cabs (cmul ((if k =? 0 then get2 Y else snd st) t f)
                          (cconj ((if k =? 0 then get2 Y else snd st) t f))))
              epsilon
    /\ rleb epsilon (fst st t f) = true.
Proof.
  intros Htot H t f.
  assert (E : fst st t f =
              power_floor epsilon (if k =? 0 then get2 Y else snd st) t f).
  { destruct k as [| k].
    - injection H as <-. reflexivity.
    - rewrite wpe_loop_succ in H. apply bind_ret_inv in H.
      destruct H as (st0 & _ & H1).
      apply wpe_iteration_inv in H1. destruct H1 as [_ H1]. apply H1. }
  split; [exact E |].
  rewrite E. unfold power_floor. apply maximum_floor. exact Htot.
Qed.

(** When [wpe] raises, the exception comes out of a pass of the loop,
    entered from the state the passes before it left. *)
Lemma wpe_raise_pass (Y : array2 C) (epsilon : R) (order delay : nat)
    (iterations : nat) (e : exn) :
  wpe Y epsilon order delay iterations = raise e ->
  exists k st,
    k < iterations /\
    wpe_loop Y epsilon order delay k = ret st /\
    wpe_iteration Y epsilon order delay st = raise e.
Proof.
  intros H. unfold wpe in H.
  destruct (wpe_loop Y epsilon order delay iterations) as [e' | st] eqn:Hl;
    simpl in H; [| discriminate H].
  injection H as ->.
  induction iterations as [| n IH].
  - discriminate Hl.
  - rewrite wpe_loop_succ in Hl.
    destruct (wpe_loop Y epsilon order delay n) as [e' | st] eqn:Hn; simpl in Hl.
    + destruct (IH Hl) as (k & st & Hk & H1 & H2).
      exists k, st. repeat split; [lia | exact H1 | exact H2].
    + exists n, st. repeat split; [lia | exact Hn | exact Hl].
Qed.

End WPE_claims.

(** C5, at a two-frame signal after one pass. *)
Lemma wpe_power_floor_witness :
  let Y := GaussZ.of_rows 2 1 [[2]; [4]]%Z in
  exists st,
    wpe_loop Y 1%Z 1 0 1 = ret st /\
    forall t f, (1 <=? fst st t f)%Z = true.
Proof.
  intros Y.
  destruct (wpe_loop Y 1%Z 1 0 1) as [e | st] eqn:H; [discriminate H |].
  exists st. split; [reflexivity |].
  intros t f.
  exact (proj2 (wpe_power_floor Y 1%Z 1 0 1 st GaussZ_rleb_total H t f)).
Defined.

(** C4, as stated, fails: a signal of 5 frames with order 4 and delay 2
    and no iterations is answered with a tensor, not an exception. *)
Lemma wpe_short_input_returns :
  let Y := GaussZ.of_rows 5 2 [[2; 1]; [4; 1]; [1; 1]; [1; 1]; [1; 1]]%Z in
  rows Y <= 4 + 2 /\
  forall e, wpe Y 1%Z 4 2 0 <> raise e.
Proof.
  intros Y. split; [simpl; lia |]. intros e H. discriminate H.
Qed.

(** C1.  The code at a signal of T = 2 frames with order 1, delay 0 and
    one iteration (T > order + delay): the leading frame of the output is
    0 although the input has 2 there. *)
Theorem wpe_leading_frame_zeroed :
  let Y := GaussZ.of_rows 2 1 [[2]; [4]]%Z in
  GaussZ.rows_of_result (wpe Y 1%Z 1 0 1) = ret [[(0, 0)]; [(2, 0)]]%Z /\
  GaussZ.to_rows Y = [[(2, 0)]; [(4, 0)]]%Z.
Proof. split; reflexivity. Qed.

(** C2.  The code at the same signal with no iteration: the output is
    all zeros, not the input. *)
Theorem wpe_zero_iterations_zeroed :
  let Y := GaussZ.of_rows 2 1 [[2]; [4]]%Z in
  GaussZ.rows_of_result (wpe Y 1%Z 1 0 0) = ret [[(0, 0)]; [(0, 0)]]%Z /\
  GaussZ.to_rows Y = [[(2, 0)]; [(4, 0)]]%Z.
Proof. split; reflexivity. Qed.

(** ** [multichannel_wpe] without iterations *)

(** C9.  With [iterations = 0] the loop body never runs, [x_hat] is
    never bound, and [return x_hat] raises UnboundLocalError: no tensor
    is returned, whatever the input. *)
Theorem multichannel_wpe_zero_iterations
    {S : Scalars} {LA : Linalg S} (Y : array3 C) (K Delta : nat) :
  multichannel_wpe Y K Delta 0 = raise UnboundLocalError.
Proof. reflexivity. Qed.

(** ** The two dereverberation passes at zero delay *)

(** C7.  The code at a signal of shape (1, 1, 3), a filter of shape
    (1, 1, 1, 1), K = 1 and Delta = 0 (so T >= K + Delta): the loop
    version returns a tensor, the vectorized version raises ValueError,
    because the slice [y[..., K+Delta-tau:-tau]] is empty at [tau = 0]. *)
Theorem dereverberate_vectorized_zero_delay :
  let y := GaussZ.of_bins 1 1 3 [[[3; 5; 7]]]%Z in
  let G_hat := GaussZ.of_taps 1 1 1 [[[[1]]]]%Z in
  GaussZ.bins_of_result (_dereverberate y G_hat 1 0)
    = ret [[[(3, 0); (0, 0); (0, 0)]]]%Z /\
  _dereverberate_vectorized y G_hat 1 0 = raise ValueError.
Proof. split; reflexivity. Qed.

(** ** The settings file *)

(** C10.  The code at a settings file that declares 12 microphones and a
    signal with 2 channels: the declared count differs from the channel
    count, yet the file is left as it is, because ["2"] occurs in the
    line. *)
Theorem dereverb_settings_substring :
  let line := ("num_mic = 12;" ++ nl)%string in
  declared_num_mic line = Some 12 /\
  dereverb_settings 2 [line] = [line].
Proof. split; reflexivity. Qed.

(** ** The loop version [_dereverberate] *)

Section Dereverberate_facts.

Context {S : Scalars} {LA : Linalg S}.

Variables (y : array3 C) (G : array4 C) (K Delta : nat).

Hypothesis G_shape : shape4 G = (len0 y, K, len1 y, len1 y).

Lemma dereverberate_body_ret (l t tau : nat) (x : nat -> nat -> nat -> C) :
  l < len0 y -> Delta <= tau < Delta + K ->
  bind (tap_prediction y G l (tau - Delta) (t - tau))
       (isub_frame x (len1 y) l t)
  = ret (frame_update y G Delta l t tau x).
Proof.
  intros Hl Htau. destruct G as [e0 e1 e2 e3 g].
  unfold shape4 in G_shape. simpl in G_shape.
  injection G_shape as -> -> -> ->.
  unfold tap_prediction. simpl.
  replace (l <? len0 y) with true by (symmetry; apply Nat.ltb_lt; exact Hl).
  replace (tau - Delta <? K) with true by (symmetry; apply Nat.ltb_lt; lia).
  rewrite Nat.eqb_refl. simpl.
  unfold isub_frame. simpl. rewrite Nat.eqb_refl. simpl. reflexivity.
Qed.

Lemma fold_frame_update (taus : list nat) (l t l' n t' : nat)
    (x : nat -> nat -> nat -> C) :
  fold_left (fun x0 tau => frame_update y G Delta l t tau x0) taus x l' n t' =
  if (l' =? l) && (t' =? t)
  then fold_left
         (fun acc tau => csub acc (prediction y G Delta l (bidx (len1 y) n) t tau))
         taus (x l' n t')
  else x l' n t'.
Proof.
  revert x. induction taus as [| tau taus IH]; intros x; simpl.
  - destruct ((l' =? l) && (t' =? t)); reflexivity.
  - rewrite IH. unfold frame_update.
    destruct ((l' =? l) && (t' =? t)); reflexivity.
Qed.

Lemma bin_update_at (l : nat) (ts : list nat) (l' n t' : nat)
    (x : nat -> nat -> nat -> C) :
  NoDup ts ->
  bin_update y G K Delta l ts x l' n t' =
  if (l' =? l) && existsb (Nat.eqb t') ts
  then frame_total y G K Delta l n t' (x l' n t')
  else x l' n t'.
Proof.
  unfold bin_update. intros Hnd. revert x.
  induction Hnd as [| t ts Hnotin Hnd IH]; intros x; simpl.
  - rewrite andb_false_r. reflexivity.
  - rewrite IH. rewrite fold_frame_update.
    destruct (l' =? l); simpl; [| reflexivity].
    destruct (existsb (Nat.eqb t') ts) eqn:Ein.
    + rewrite orb_true_r.
      destruct (t' =? t) eqn:Et; [| reflexivity].
      apply Nat.eqb_eq in Et. subst t'.
      apply existsb_exists in Ein. destruct Ein as (u & Hu & Eu).
      apply Nat.eqb_eq in Eu. subst u. contradiction.
    + rewrite orb_false_r.
      destruct (t' =? t) eqn:Et; [| reflexivity].
      apply Nat.eqb_eq in Et. subst t'. reflexivity.
Qed.

Lemma all_bins_at (ls ts : list nat) (l' n t' : nat)
    (x : nat -> nat -> nat -> C) :
  NoDup ls -> NoDup ts ->
  fold_left (fun x0 l => bin_update y G K Delta l ts x0) ls x l' n t' =
  if existsb (Nat.eqb l') ls && existsb (Nat.eqb t') ts
  then frame_total y G K Delta l' n t' (x l' n t')
  else x l' n t'.
Proof.
  intros Hls Hts. revert x.
  induction Hls as [| l ls Hnotin Hls IH]; intros x; simpl.
  - reflexivity.
  - rewrite IH. rewrite (bin_update_at l ts l' n t' x Hts).
    destruct (existsb (Nat.eqb l') ls) eqn:Ein.
    + rewrite orb_true_r.
      destruct (l' =? l) eqn:El; [| reflexivity].
      apply Nat.eqb_eq in El. subst l'.
      apply existsb_exists in Ein. destruct Ein as (u & Hu & Eu).
      apply Nat.eqb_eq in Eu. subst u. contradiction.
    + rewrite orb_false_r.
      destruct (l' =? l) eqn:El; [| reflexivity].
      apply Nat.eqb_eq in El. subst l'. simpl.
      destruct (existsb (Nat.eqb t') ts); reflexivity.
Qed.

Lemma existsb_range (a b i : nat) :
  existsb (Nat.eqb i) (range a b) = (a <=? i) && (i <? b).
Proof.
  destruct (existsb (Nat.eqb i) (range a b)) eqn:E.
  - apply existsb_exists in E. destruct E as (u & Hu & Eu).
    apply Nat.eqb_eq in Eu. subst u. apply in_range in Hu.
    symmetry. apply andb_true_iff. split;
      [apply Nat.leb_le | apply Nat.ltb_lt]; lia.
  - symmetry. apply andb_false_iff.
    destruct (a <=? i) eqn:Ea; [| left; reflexivity].
    destruct (i <? b) eqn:Eb; [| right; reflexivity].
    apply Nat.leb_le in Ea. apply Nat.ltb_lt in Eb.
    assert (Hin : In i (range a b)) by (apply in_range; lia).
    assert (Ht : existsb (Nat.eqb i) (range a b) = true).
    { apply existsb_exists. exists i. split; [exact Hin | apply Nat.eqb_refl]. }
    rewrite Ht in E. discriminate E.
Qed.

(** [_dereverberate] returns, and every entry of its result is the
    input entry with the predictions of all taps subtracted in turn. *)
Lemma dereverberate_returns :
  exists x,
    _dereverberate y G K Delta = ret x /\
    shape3 x = shape3 y /\
    forall l n t, l < len0 y -> n < len1 y -> t < len2 y ->
      get3 x l n t =
      if Delta + K <=? t
      then fold_left (fun acc tau => csub acc (prediction y G Delta l n t tau))
                     (range Delta (Delta + K)) (get3 y l n t)
      else get3 y l n t.
Proof.
  unfold _dereverberate.
  rewrite (for_ret_fold (range 0 (len0 y)) _
             (fun l x0 => bin_update y G K Delta l (range (Delta + K) (len2 y)) x0)).
  - simpl. eexists. split; [reflexivity |]. split; [reflexivity |].
    intros l n t Hl Hn Ht. simpl.
    rewrite all_bins_at by apply range_nodup.
    rewrite !existsb_range.
    replace (0 <=? l) with true by (symmetry; apply Nat.leb_le; lia).
    replace (l <? len0 y) with true by (symmetry; apply Nat.ltb_lt; lia).
    replace (t <? len2 y) with true by (symmetry; apply Nat.ltb_lt; lia).
    simpl. rewrite andb_true_r.
    unfold frame_total. rewrite (bidx_lt _ _ Hn). reflexivity.
  - intros l x0 Hl. apply in_range in Hl.
    apply for_ret_fold. intros t x1 _.
    apply for_ret_fold. intros tau x2 Htau. apply in_range in Htau.
    apply dereverberate_body_ret; lia.
Qed.

End Dereverberate_facts.

Lemma csub_sequence {S : Scalars} (p : nat -> C) (taus : list nat) (a : C) :
  csub_laws ->
  fold_left (fun acc tau => csub acc (p tau)) taus a = csub a (csum_over taus p).
Proof.
  intros [H0 Hs]. unfold csum_over.
  rewrite <- (H0 a) at 1. generalize (@c0 S) as b. revert a.
  induction taus as [| tau taus IH]; intros a b; simpl.
  - reflexivity.
  - rewrite Hs. apply IH.
Qed.

(** C3.  The dereverberation pass.  For a signal of shape (L, N, T) and
    a filter of shape (L, K, N, N), [_dereverberate] returns a tensor of
    the shape of the signal in which, for every bin l and channel n,
    the entry at a time t with K + Delta <= t < T is the input entry
    minus the sum over tau from Delta to Delta + K - 1 of entry n of
    G[l, tau - Delta]^H applied to Y[l, :, t - tau], and the entry at
    a time t < K + Delta is the input entry. *)
Theorem dereverberate_spec {S : Scalars} {LA : Linalg S}
    (y : array3 C) (G : array4 C) (K Delta : nat) :
  csub_laws ->
  shape4 G = (len0 y, K, len1 y, len1 y) ->
  exists x,
    _dereverberate y G K Delta = ret x /\
    shape3 x = shape3 y /\
    forall l n t, l < len0 y -> n < len1 y -> t < len2 y ->
      get3 x l n t =
      if K + Delta <=? t
      then csub (get3 y l n t)
                (csum_over (range Delta (Delta + K)) (prediction y G Delta l n t))
      else get3 y l n t.
Proof.
  intros Hlaws HG.
  destruct (dereverberate_returns y G K Delta HG) as (x & Hx & Hs & Hv).
  exists x. split; [exact Hx |]. split; [exact Hs |].
  intros l n t Hl Hn Ht. rewrite (Hv l n t Hl Hn Ht).
  rewrite (Nat.add_comm K Delta).
  destruct (Delta + K <=? t); [| reflexivity].
  apply csub_sequence. exact Hlaws.
Qed.

(** C3, at a one-bin, one-channel signal of three frames with one tap
    and delay one: the last frame becomes 7 - 1 * 5 = 2. *)
Lemma dereverberate_spec_witness :
  let y := GaussZ.of_bins 1 1 3 [[[3; 5; 7]]]%Z in
  let G := GaussZ.of_taps 1 1 1 [[[[1]]]]%Z in
  exists x,
    _dereverberate y G 1 1 = ret x /\
    shape3 x = (1, 1, 3) /\
    get3 x 0 0 0 = (3, 0)%Z /\ get3 x 0 0 1 = (5, 0)%Z /\ get3 x 0 0 2 = (2, 0)%Z.
Proof.
  intros y G.
  destruct (dereverberate_spec y G 1 1 GaussZ_csub_laws eq_refl)
    as (x & Hx & Hs & Hv).
  exists x. split; [exact Hx |]. split; [exact Hs |].
  repeat split.
  - rewrite (Hv 0 0 0) by (simpl; lia). reflexivity.
  - rewrite (Hv 0 0 1) by (simpl; lia). reflexivity.
  - rewrite (Hv 0 0 2) by (simpl; lia). reflexivity.
Defined.

(** ** The filter of [multichannel_wpe] *)

Section Multichannel_facts.

Context {S : Scalars} {LA : Linalg S}.

(** The loop that solves one system per bin and stores the solution in
    row [l] of [g_hat]: when it returns, every row it visited holds the
    solution of its own system. *)
Lemma solve_rows (n : nat) (A : nat -> nat -> nat -> C) (b : nat -> nat -> C)
    (ls : list nat) (g0 g : nat -> nat -> C) :
  NoDup ls ->
  for_ ls
    (fun l g_hat =>
       match solve n (A l) (b l) with
       | Some v => ret (fun l' i => if l' =? l then v i else g_hat l' i)
       | None => raise LinAlgError
       end) g0 = ret g ->
  (forall l, In l ls ->
     exists sol, solve n (A l) (b l) = Some sol /\ forall i, g l i = sol i) /\
  (forall l, ~ In l ls -> forall i, g l i = g0 l i).
Proof.
  intros Hnd. revert g0.
  induction Hnd as [| l ls Hnotin Hnd IH]; intros g0 H; simpl in H.
  - injection H as <-. split; [intros l [] | reflexivity].
  - destruct (solve n (A l) (b l)) as [v |] eqn:Hv; simpl in H; [| discriminate H].
    destruct (IH _ H) as [Hin Hout]. split.
    + intros l' [<- | Hl'].
      * exists v. split; [exact Hv |]. intros i.
        rewrite (Hout l Hnotin i). rewrite Nat.eqb_refl. reflexivity.
      * apply Hin. exact Hl'.
    + intros l' Hl' i.
      rewrite (Hout l') by (intros Hc; apply Hl'; right; exact Hc).
      destruct (l' =? l) eqn:E; [| reflexivity].
      apply Nat.eqb_eq in E. subst l'. exfalso. apply Hl'. left. reflexivity.
Qed.

Variables (Y : array3 C) (K Delta : nat).

Lemma multichannel_loop_succ (k : nat) :
  multichannel_loop Y K Delta (Datatypes.S k) =
  bind (multichannel_loop Y K Delta k)
       (fun st =>
          bind (multichannel_iteration Y K Delta (fst st))
               (fun r => ret (fst r, Some (snd r)))).
Proof.
  unfold multichannel_loop. rewrite range_succ by lia. rewrite for_app.
  destruct (for_ (range 0 k) _ _) as [e | st]; simpl; [reflexivity |].
  apply bind_ret_r.
Qed.

End Multichannel_facts.

(** ** The routines read their tensors inside the shape only *)

Section Outcomes.

Lemma same_outcome_bind {A B : Type} (relA : A -> A -> Prop)
    (relB : B -> B -> Prop) (m m' : result A) (k k' : A -> result B) :
  same_outcome relA m m' ->
  (forall a a', relA a a' -> same_outcome relB (k a) (k' a')) ->
  same_outcome relB (bind m k) (bind m' k').
Proof.
  destruct m as [e | a], m' as [e' | a']; simpl; intros H Hk;
    try contradiction.
  - exact H.
  - apply Hk. exact H.
Qed.

Lemma same_outcome_for {St : Type} (rel : St -> St -> Prop) (xs : list nat)
    (body body' : nat -> St -> result St) (s s' : St) :
  rel s s' ->
  (forall i a a', In i xs -> rel a a' -> same_outcome rel (body i a) (body' i a')) ->
  same_outcome rel (for_ xs body s) (for_ xs body' s').
Proof.
  revert s s'. induction xs as [| i xs IH]; intros s s' Hs Hb; simpl.
  - exact Hs.
  - apply (same_outcome_bind rel rel).
    + apply Hb; [left; reflexivity | exact Hs].
    + intros a a' Ha. apply IH; [exact Ha |].
      intros j b b' Hj. apply Hb. right. exact Hj.
Qed.

Lemma csum_over_ext {S : Scalars} (xs : list nat) (f g : nat -> C) :
  (forall i, In i xs -> f i = g i) -> csum_over xs f = csum_over xs g.
Proof.
  unfold csum_over. generalize (@c0 S) as acc.
  induction xs as [| i xs IH]; intros acc H; simpl.
  - reflexivity.
  - rewrite (H i (or_introl eq_refl)). apply IH.
    intros j Hj. apply H. right. exact Hj.
Qed.

Lemma csum_ext {S : Scalars} (n : nat) (f g : nat -> C) :
  (forall i, i < n -> f i = g i) -> csum n f = csum n g.
Proof.
  intros H. apply csum_over_ext. intros i Hi. apply H.
  apply in_seq in Hi. lia.
Qed.

End Outcomes.

(** A window of [segment_axis] that survives the cut of the last
    [delay + 1] windows lies inside the signal. *)
Lemma window_in_range (T order delay d t : nat) :
  d < order ->
  t < (if T <? order then 0 else (T - order) / (order - (order - 1)) + 1)
      - (delay + 1) ->
  t * (order - (order - 1)) + d < T.
Proof.
  intros Hd Ht.
  replace (order - (order - 1)) with 1 in * by lia.
  rewrite Nat.div_1_r in Ht.
  destruct (T <? order) eqn:E; [simpl in Ht; lia |].
  apply Nat.ltb_ge in E. lia.
Qed.

Section WPE_extensionality.

Context {S : Scalars} {LA : Linalg S}.

Hypothesis Hext : linalg_extensional LA.

Variables (T F : nat) (a a' : nat -> nat -> C).
Variables (epsilon : R) (order delay : nat).

Hypothesis Ha : forall t f, t < T -> f < F -> a t f = a' t f.

Lemma wpe_iteration_ext (st st' : (nat -> nat -> R) * (nat -> nat -> C)) :
  (agree_state T F) st st' ->
  same_outcome (agree_state T F)
    (wpe_iteration (Array2 T F a) epsilon order delay st)
    (wpe_iteration (Array2 T F a') epsilon order delay st').
Proof.
  intros [Hp Hd]. unfold wpe_iteration. cbn [rows cols get2 segment_axis fst snd].
  set (W := (if T <? order then 0
             else (T - order) / (order - (order - 1)) + 1) - (delay + 1)).
  set (hop := order - (order - 1)).
  assert (Hwin : forall d t, d < order -> t < W -> t * hop + d < T).
  { intros d t Hd' Ht. apply (window_in_range T order delay d t Hd' Ht). }
  assert (Hn : forall t f, t < T -> f < F ->
             cdivr (a t f) (rsqrt (fst st t f)) =
             cdivr (a' t f) (rsqrt (fst st' t f))).
  { intros t f Ht Hf. rewrite (Ha t f Ht Hf), (Hp t f Ht Hf). reflexivity. }
  destruct (broadcast W (T - (order + delay))) as [e | Wc] eqn:HWc;
    [reflexivity |].
  cbn [bind].
  apply (same_outcome_bind
           (fun rc rc' : nat -> nat -> C =>
              forall f d, f < F -> d < order -> rc f d = rc' f d) (agree_state T F)).
  - apply same_outcome_for; [reflexivity |].
    intros f rc rc' Hf Hrc. apply in_range in Hf.
    destruct Hext as (Hsolve & _ & _).
    match goal with
    | |- same_outcome _ (match solve _ ?A ?b with _ => _ end)
                        (match solve _ ?A' ?b' with _ => _ end) =>
        assert (Hs := Hsolve order A A' b b')
    end.
    cbv beta in Hs.
    match type of Hs with
    | ?P1 -> ?P2 -> _ => assert (H1 : P1); [| assert (H2 : P2)]
    end.
    + intros d e Hd' He. apply csum_ext. intros t Ht.
      rewrite (Hn (t * hop + d) f) by (try apply Hwin; lia).
      rewrite (Hn (t * hop + e) f) by (try apply Hwin; lia).
      reflexivity.
    + intros d Hd'. apply csum_ext. intros t Ht.
      destruct (broadcast_bidx _ _ _ t HWc Ht) as [Hb1 Hb2].
      rewrite (Hn (bidx W t * hop + d) f) by (try apply Hwin; lia).
      rewrite (Hn (order + delay + bidx (T - (order + delay)) t) f) by lia.
      reflexivity.
    + specialize (Hs H1 H2).
      destruct (solve order _ _) as [c |], (solve order _ _) as [c' |];
        simpl in Hs |- *; try contradiction; [| reflexivity].
      intros f' d Hf' Hd'.
      destruct (f' =? f); [apply Hs; exact Hd' | apply Hrc; assumption].
  - intros rc rc' Hrc.
    destruct (broadcast (T - (order + delay)) W) as [e | Wd] eqn:HWd;
      [reflexivity |].
    cbn [bind].
    destruct ((Wd =? T - (order + delay)) || (Wd =? 1)) eqn:Hfit;
      [| reflexivity].
    assert (Hnew : forall t f, t < T -> f < F ->
      (if (order + delay <=? t) && (t <? T)
       then csub (a (order + delay
                     + bidx (T - (order + delay)) (bidx Wd (t - (order + delay)))) f)
                 (csum order (fun b =>
                    cmul (cconj (rc f b))
                         (a (bidx W (bidx Wd (t - (order + delay))) * hop + b) f)))
       else snd st t f) =
      (if (order + delay <=? t) && (t <? T)
       then csub (a' (order + delay
                      + bidx (T - (order + delay)) (bidx Wd (t - (order + delay)))) f)
                 (csum order (fun b =>
                    cmul (cconj (rc' f b))
                         (a' (bidx W (bidx Wd (t - (order + delay))) * hop + b) f)))
       else snd st' t f)).
    { intros t f Ht Hf.
      destruct ((order + delay <=? t) && (t <? T)) eqn:Hc;
        [| apply Hd; assumption].
      apply andb_true_iff in Hc. destruct Hc as [Hc1 Hc2].
      apply Nat.leb_le in Hc1.
      assert (Hi : bidx Wd (t - (order + delay)) < Wd).
      { unfold bidx. apply orb_true_iff in Hfit.
        destruct (Wd =? 1) eqn:E1; [apply Nat.eqb_eq in E1; lia |].
        destruct Hfit as [Hfit | Hfit]; [| discriminate Hfit].
        apply Nat.eqb_eq in Hfit. lia. }
      destruct (broadcast_bidx _ _ _ _ HWd Hi) as [Hb1 Hb2].
      rewrite Ha by lia. f_equal.
      apply csum_ext. intros b Hb.
      rewrite (Hrc f b Hf Hb).
      rewrite Ha by (try apply Hwin; lia).
      reflexivity. }
    simpl. split.
    + intros t f Ht Hf. unfold power_floor. cbn [fst snd].
      rewrite (Hnew t f Ht Hf). reflexivity.
    + intros t f Ht Hf. cbn [fst snd]. apply Hnew; assumption.
Qed.

Lemma wpe_loop_ext (k : nat) :
  same_outcome (agree_state T F)
    (wpe_loop (Array2 T F a) epsilon order delay k)
    (wpe_loop (Array2 T F a') epsilon order delay k).
Proof.
  unfold wpe_loop. apply same_outcome_for.
  - split; simpl.
    + intros t f Ht Hf. unfold power_floor. rewrite (Ha t f Ht Hf). reflexivity.
    + reflexivity.
  - intros _ st st' _ Hst. apply wpe_iteration_ext. exact Hst.
Qed.

End WPE_extensionality.

Lemma wpe_ext {S : Scalars} {LA : Linalg S} (Y Y' : array2 C)
    (epsilon : R) (order delay iterations : nat) :
  linalg_extensional LA ->
  agree2 Y Y' ->
  same_outcome agree2 (wpe Y epsilon order delay iterations)
                      (wpe Y' epsilon order delay iterations).
Proof.
  intros Hext HY. destruct Y as [T F a], Y' as [T' F' a'].
  destruct HY as (HT & HF & Ha). simpl in HT, HF, Ha. subst T' F'.
  unfold wpe.
  apply (same_outcome_bind (agree_state T F) agree2).
  - apply wpe_loop_ext; assumption.
  - intros st st' [_ Hd]. simpl. repeat split. exact Hd.
Qed.

Lemma py_index_lt (n : nat) (i : Z) (j : nat) :
  py_index n i = ret j -> j < n.
Proof.
  unfold py_index.
  destruct ((0 <=? i)%Z && (i <? Z.of_nat n)%Z) eqn:E1.
  - intros H. injection H as <-.
    apply andb_true_iff in E1. destruct E1 as [E1 E2].
    apply Z.leb_le in E1. apply Z.ltb_lt in E2. lia.
  - destruct ((- Z.of_nat n <=? i)%Z && (i <? 0)%Z) eqn:E2; [| discriminate].
    intros H. injection H as <-.
    apply andb_true_iff in E2. destruct E2 as [E2 E3].
    apply Z.leb_le in E2. apply Z.ltb_lt in E3. lia.
Qed.

Lemma py_bound_le (n : nat) (i : Z) : py_bound n i <= n.
Proof.
  unfold py_bound. destruct (i <? 0)%Z eqn:E; [| lia].
  apply Z.ltb_lt in E. lia.
Qed.

Section Multichannel_extensionality.

Context {S : Scalars} {LA : Linalg S}.

Hypothesis Hext : linalg_extensional LA.

(** The loop that solves one system per row, in two runs on systems that
    agree. *)
Lemma solve_rows_ext (n L : nat) (A A' : nat -> nat -> nat -> C)
    (b b' : nat -> nat -> C) :
  (forall l i j, l < L -> i < n -> j < n -> A l i j = A' l i j) ->
  (forall l i, l < L -> i < n -> b l i = b' l i) ->
  same_outcome
    (fun g g' : nat -> nat -> C =>
       forall l i, l < L -> i < n -> g l i = g' l i)
    (for_ (range 0 L)
       (fun l g_hat =>
          match solve n (A l) (b l) with
          | Some v => ret (fun l' i => if l' =? l then v i else g_hat l' i)
          | None => raise LinAlgError
          end) (fun _ _ => c0))
    (for_ (range 0 L)
       (fun l g_hat =>
          match solve n (A' l) (b' l) with
          | Some v => ret (fun l' i => if l' =? l then v i else g_hat l' i)
          | None => raise LinAlgError
          end) (fun _ _ => c0)).
Proof.
  intros HA Hb. apply same_outcome_for; [reflexivity |].
  intros l g g' Hl Hg. apply in_range in Hl.
  destruct Hext as (Hsolve & _ & _).
  assert (Hs := Hsolve n (A l) (A' l) (b l) (b' l)).
  assert (H1 : forall i j, i < n -> j < n -> A l i j = A' l i j)
    by (intros; apply HA; lia).
  assert (H2 : forall i, i < n -> b l i = b' l i) by (intros; apply Hb; lia).
  specialize (Hs H1 H2).
  destruct (solve n (A l) (b l)) as [v |], (solve n (A' l) (b' l)) as [v' |];
    simpl in Hs |- *; try contradiction; [| reflexivity].
  intros l' i Hl' Hi.
  destruct (l' =? l); [apply Hs; exact Hi | apply Hg; assumption].
Qed.

Lemma inv_rows_ext (N L : nat) (c c' : nat -> nat -> nat -> C) :
  (forall l i j, l < L -> i < N -> j < N -> c l i j = c' l i j) ->
  same_outcome
    (fun m m' : nat -> nat -> nat -> C =>
       forall l i j, l < L -> i < N -> j < N -> m l i j = m' l i j)
    (for_ (range 0 L)
       (fun l inverse =>
          match inv N (c l) with
          | Some m => ret (fun l' a b => if l' =? l then m a b else inverse l' a b)
          | None => raise LinAlgError
          end) (fun _ _ _ => c0))
    (for_ (range 0 L)
       (fun l inverse =>
          match inv N (c' l) with
          | Some m => ret (fun l' a b => if l' =? l then m a b else inverse l' a b)
          | None => raise LinAlgError
          end) (fun _ _ _ => c0)).
Proof.
  intros Hc. apply same_outcome_for; [reflexivity |].
  intros l g g' Hl Hg. apply in_range in Hl.
  destruct Hext as (_ & Hinv & _).
  assert (Hs := Hinv N (c l) (c' l)).
  assert (H1 : forall i j, i < N -> j < N -> c l i j = c' l i j)
    by (intros; apply Hc; lia).
  specialize (Hs H1).
  destruct (inv N (c l)) as [v |], (inv N (c' l)) as [v' |];
    simpl in Hs |- *; try contradiction; [| reflexivity].
  intros l' i j Hl' Hi Hj.
  destruct (l' =? l); [apply Hs; assumption | apply Hg; assumption].
Qed.

Lemma dereverberate_ext (y y' : array3 C) (G G' : array4 C) (K Delta : nat) :
  agree3 y y' -> agree4 G G' ->
  same_outcome agree3 (_dereverberate y G K Delta) (_dereverberate y' G' K Delta).
Proof.
  destruct y as [L N T a], y' as [L' N' T' a'].
  destruct G as [e0 e1 e2 e3 g], G' as [e0' e1' e2' e3' g'].
  intros (HL & HN & HT & Ha) (H0 & H1 & H2 & H3 & Hg).
  simpl in HL, HN, HT, Ha, H0, H1, H2, H3, Hg. subst L' N' T' e0' e1' e2' e3'.
  unfold _dereverberate. cbn [len0 len1 len2 get3].
  apply (same_outcome_bind
           (fun x x' : nat -> nat -> nat -> C =>
              forall l n t, l < L -> n < N -> t < T -> x l n t = x' l n t)
           agree3).
  - apply same_outcome_for; [exact Ha |].
    intros l x x' Hl Hx. apply in_range in Hl.
    apply same_outcome_for; [exact Hx |].
    intros t x1 x1' Ht Hx1. apply in_range in Ht.
    apply same_outcome_for; [exact Hx1 |].
    intros tau x2 x2' Htau Hx2. apply in_range in Htau.
    unfold tap_prediction. cbn [ext0 ext1 ext2 ext3 get4 len1 get3].
    destruct ((l <? e0) && (tau - Delta <? e1)) eqn:Eidx; [| reflexivity].
    destruct (e2 =? N) eqn:Edot; [| reflexivity].
    cbn [bind ret]. unfold isub_frame. cbn [fst snd].
    destruct ((e3 =? N) || (e3 =? 1)) eqn:Efit; [| reflexivity].
    simpl. intros l' n t' Hl' Hn Ht'.
    rewrite (Hx2 l' n t' Hl' Hn Ht').
    destruct ((l' =? l) && (t' =? t)); [| reflexivity].
    f_equal.
    apply andb_true_iff in Eidx. destruct Eidx as [Ei1 Ei2].
    apply Nat.ltb_lt in Ei1. apply Nat.ltb_lt in Ei2.
    apply Nat.eqb_eq in Edot.
    assert (Hb : bidx e3 n < e3).
    { unfold bidx. destruct (e3 =? 1) eqn:E1; [apply Nat.eqb_eq in E1; lia |].
      apply orb_true_iff in Efit. destruct Efit as [Efit | Efit];
        [apply Nat.eqb_eq in Efit; lia | discriminate Efit]. }
    apply csum_ext. intros m Hm.
    rewrite (Hg l (tau - Delta) m (bidx e3 n)) by lia.
    rewrite (Ha l m (t - tau)) by lia.
    reflexivity.
  - intros x x' Hx. simpl. repeat split. exact Hx.
Qed.

Lemma spatial_inverse_ext (x x' : array3 C) :
  agree3 x x' ->
  same_outcome agree4 (_get_spatial_correlation_matrix_inverse x)
                      (_get_spatial_correlation_matrix_inverse x').
Proof.
  destruct x as [L N T a], x' as [L' N' T' a'].
  intros (HL & HN & HT & Ha). simpl in HL, HN, HT, Ha. subst L' N' T'.
  unfold _get_spatial_correlation_matrix_inverse. cbn [len0 len1 len2 get3].
  destruct Hext as (_ & _ & Hsf).
  apply (same_outcome_bind _ agree4 _ _ _ _ (Hsf L N T a a' Ha)).
  intros cp cp' [Hc Hp]. cbv beta.
  apply (same_outcome_bind _ agree4 _ _ _ _
           (inv_rows_ext N L (fst cp) (fst cp') Hc)).
  intros m m' Hm. unfold agree4. simpl. repeat split.
  intros l k a0 b Hl Hk Ha0 Hb.
  rewrite (Hm l k a0) by assumption. rewrite (Hp l b) by assumption.
  reflexivity.
Qed.

Lemma crazy_matrix_ext (Y Y' : array3 C) (K Delta : nat) :
  agree3 Y Y' ->
  same_outcome agree_bins (_get_crazy_matrix Y K Delta)
                          (_get_crazy_matrix Y' K Delta).
Proof.
  destruct Y as [L N T a], Y' as [L' N' T' a'].
  intros (HL & HN & HT & Ha). simpl in HL, HN, HT, Ha. subst L' N' T'.
  unfold _get_crazy_matrix. cbn [len0 len1 len2 get3].
  destruct (Z.of_nat T - Z.of_nat Delta - Z.of_nat K + 1 <? 0)%Z;
    [reflexivity |].
  apply (same_outcome_bind
           (fun psi psi' : nat -> nat -> nat -> nat -> C =>
              forall l m n p, l < L -> psi l m n p = psi' l m n p)
           agree_bins).
  - apply same_outcome_for; [reflexivity |].
    intros n0 p0 p0' Hn0 Hp0. apply in_range in Hn0.
    apply same_outcome_for; [exact Hp0 |].
    intros n1 p1 p1' Hn1 Hp1. apply in_range in Hn1.
    apply same_outcome_for; [exact Hp1 |].
    intros tau p2 p2' _ Hp2.
    apply same_outcome_for; [exact Hp2 |].
    intros t p3 p3' _ Hp3.
    destruct (py_index T (Z.of_nat t - Z.of_nat tau)) as [e | src] eqn:Hsrc;
      [reflexivity |].
    cbn [bind].
    destruct (py_index _ (Z.of_nat t - Z.of_nat Delta - Z.of_nat K + 1))
      as [e | dst]; [reflexivity |].
    simpl. intros l m n p Hl.
    rewrite (Hp3 l m n p Hl).
    rewrite (Ha l n1 src) by (try apply (py_index_lt _ _ _ Hsrc); lia).
    reflexivity.
  - intros psi psi' Hpsi. simpl. split; [reflexivity | exact Hpsi].
Qed.

Lemma multichannel_iteration_ext (Y Y' : array3 C) (K Delta : nat)
    (G G' : array4 C) :
  agree3 Y Y' -> agree4 G G' ->
  same_outcome
    (fun r r' : array4 C * array3 C =>
       agree4 (fst r) (fst r') /\ agree3 (snd r) (snd r'))
    (multichannel_iteration Y K Delta G)
    (multichannel_iteration Y' K Delta G').
Proof.
  intros HY HG.
  assert (Hx := dereverberate_ext Y Y' G G' K Delta HY HG).
  assert (Hpsi := crazy_matrix_ext Y Y' K Delta HY).
  destruct Y as [L N T a], Y' as [L' N' T' a'].
  destruct HY as (HL & HN & HT & Ha). simpl in HL, HN, HT, Ha. subst L' N' T'.
  unfold multichannel_iteration. cbn [len0 len1 len2 get3].
  apply (same_outcome_bind agree3 _ _ _ _ _ Hx). clear Hx.
  intros x x' Hx.
  assert (Hfull := spatial_inverse_ext x x' Hx).
  destruct x as [xl xn xt xa], x' as [xl' xn' xt' xa'].
  assert (Hx' := Hx).
  destruct Hx' as (E0 & E1 & E2 & _). simpl in E0, E1, E2. subst xl' xn' xt'.
  unfold shape3. cbn [len0 len1 len2].
  destruct (assert_ (shape3_eqb (xl, xn, xt) (L, N, T))) as [e | []];
    [reflexivity |].
  cbn [bind].
  apply (same_outcome_bind agree4 _ _ _ _ _ Hfull). clear Hfull.
  intros full full' Hfull.
  destruct full as [f0 f1 f2 f3 fa], full' as [f0' f1' f2' f3' fa'].
  destruct Hfull as (E0 & E1 & E2 & E3 & Hfa).
  simpl in E0, E1, E2, E3, Hfa. subst f0' f1' f2' f3'.
  unfold shape4. cbn [ext0 ext1 ext2 ext3 get4].
  set (Tp := (Z.of_nat T - Z.of_nat Delta - Z.of_nat K + 1)%Z).
  set (T' := py_bound f3 Tp).
  assert (HT' : T' <= f3) by apply py_bound_le.
  destruct (shape4_eqb (f0, f1, f2, T') (L, N, N, T') && (Z.of_nat T' =? Tp)%Z)
    eqn:Hlam; [| reflexivity].
  cbn [assert_ bind ret].
  apply andb_true_iff in Hlam. destruct Hlam as [Hlam _].
  unfold shape4_eqb in Hlam.
  repeat (apply andb_true_iff in Hlam; destruct Hlam as [Hlam ?]).
  repeat match goal with
         | H : (_ =? _) = true |- _ => apply Nat.eqb_eq in H
         end.
  subst f0 f1 f2.
  apply (same_outcome_bind agree_bins _ _ _ _ _ Hpsi). clear Hpsi.
  intros psi psi' Hpsi.
  destruct psi as [p0 p1 p2 p3 pa], psi' as [p0' p1' p2' p3' pa'].
  destruct Hpsi as (Hshape & Hpa). unfold shape4 in Hshape.
  simpl in Hshape, Hpa. injection Hshape as <- <- <- <-.
  cbn [ext0 ext1 ext2 ext3 get4].
  destruct (shape4_eqb (p0, p1, p2, p3) (L, N * N * K, N, T')) eqn:Hpshape;
    [| reflexivity].
  cbn [assert_ bind ret].
  unfold shape4_eqb in Hpshape.
  repeat (apply andb_true_iff in Hpshape; destruct Hpshape as [Hpshape ?]).
  repeat match goal with
         | H : (_ =? _) = true |- _ => apply Nat.eqb_eq in H
         end.
  subst p0 p1 p2 p3.
  set (first := py_bound T (Z.of_nat K + Z.of_nat Delta - 1)).
  destruct (broadcast T' (T - first)) as [e | Tr] eqn:HTr; [reflexivity |].
  cbn [bind].
  eapply same_outcome_bind.
  - apply (solve_rows_ext (N * N * K) L).
    + intros l i j Hl _ _. cbv beta.
      apply csum_ext. intros n Hn. apply csum_ext. intros o Ho.
      apply csum_ext. intros t Ht.
      rewrite !(Hpa l) by exact Hl.
      rewrite (Hfa l n o t) by lia.
      reflexivity.
    + intros l i Hl _. cbv beta.
      apply csum_ext. intros n Hn. apply csum_ext. intros o Ho.
      apply csum_ext. intros t Ht.
      destruct (broadcast_bidx _ _ _ t HTr Ht) as [Hb1 Hb2].
      rewrite !(Hpa l) by exact Hl.
      rewrite (Hfa l n o (bidx T' t)) by lia.
      rewrite (Ha l o (first + bidx (T - first) t)) by lia.
      reflexivity.
  - intros g g' Hg. cbv beta.
    unfold shape4. cbn [ext0 ext1 ext2 ext3 get4].
    destruct (assert_ (shape4_eqb (L, K, N, N) (L, K, N, N))) as [e | []];
      [reflexivity |].
    cbn [bind ret same_outcome fst snd]. split; [| exact Hx].
    unfold agree4. cbn [ext0 ext1 ext2 ext3 get4]. repeat split.
    intros l k a0 b Hl Hk Ha0 Hb. apply Hg; [exact Hl |].
    assert (H1 : a0 * N + b + 1 <= N * N) by nia.
    assert (H2 : (a0 * N + b + 1) * K <= N * N * K)
      by (apply Nat.mul_le_mono_r; exact H1).
    lia.
Qed.

Lemma multichannel_wpe_ext (Y Y' : array3 C) (K Delta iterations : nat) :
  agree3 Y Y' ->
  same_outcome agree3 (multichannel_wpe Y K Delta iterations)
                      (multichannel_wpe Y' K Delta iterations).
Proof.
  intros HY. unfold multichannel_wpe.
  apply (same_outcome_bind
           (fun st st' : array4 C * option (array3 C) =>
              agree4 (fst st) (fst st') /\
              match snd st, snd st' with
              | Some x, Some x' => agree3 x x'
              | None, None => True
              | _, _ => False
              end)
           agree3).
  - unfold multichannel_loop. apply same_outcome_for.
    + destruct HY as (HL & HN & HT & Ha). cbn [fst snd]. split; [| exact I].
      unfold agree4. cbn [ext0 ext1 ext2 ext3 get4]. rewrite <- HL, <- HN.
      repeat split.
    + intros _ st st' _ [HG _].
      eapply same_outcome_bind.
      * apply (multichannel_iteration_ext Y Y' K Delta _ _ HY HG).
      * intros r r' [Hr1 Hr2]. simpl. split; assumption.
  - intros st st' [_ Hx].
    destruct (snd st) as [x |], (snd st') as [x' |]; try contradiction.
    + exact Hx.
    + reflexivity.
Qed.

End Multichannel_extensionality.

Lemma GaussZ_linalg_extensional : linalg_extensional GaussZ.linalg.
Proof.
  repeat split.
  - intros n A A' b b' HA Hb. simpl. unfold GaussZ.solve1.
    destruct n as [| [| n]]; simpl; [reflexivity | | exact I].
    rewrite (HA 0 0) by lia. rewrite (Hb 0) by lia.
    destruct (Z.eqb (GaussZ.norm2 (A' 0 0)) 0%Z); simpl; [exact I | reflexivity].
  - intros n A A' HA. simpl. unfold GaussZ.inv1.
    destruct n as [| [| n]]; simpl; [reflexivity | | exact I].
    rewrite (HA 0 0) by lia.
    destruct (Z.eqb (GaussZ.norm2 (A' 0 0)) 0%Z); simpl; [exact I | reflexivity].
Qed.

(** ** The vectorized pass [_dereverberate_vectorized] *)

Lemma py_bound_nat (n i : nat) : py_bound n (Z.of_nat i) = Nat.min i n.
Proof.
  unfold py_bound.
  replace (Z.of_nat i <? 0)%Z with false by (symmetry; apply Z.ltb_ge; lia).
  rewrite Nat2Z.id. reflexivity.
Qed.

Lemma py_bound_from_end (n i : nat) :
  0 < i -> py_bound n (- Z.of_nat i) = n - i.
Proof.
  intros Hi. unfold py_bound.
  replace (- Z.of_nat i <? 0)%Z with true by (symmetry; apply Z.ltb_lt; lia).
  lia.
Qed.

Section Vectorized_facts.

Context {S : Scalars} {LA : Linalg S}.

Variables (y : array3 C) (G : array4 C) (K Delta : nat).

Hypothesis G_shape : shape4 G = (len0 y, K, len1 y, len1 y).

(** X6.  At zero delay [_dereverberate_vectorized] raises ValueError
    on every signal with more than K >= 1 frames: the first pass of the
    loop has [tau = 0], the slice [y[..., K:-0]] is empty and cannot be
    subtracted from the [T - K > 0] trailing frames. *)
Lemma vectorized_zero_delay_raises :
  Delta = 0 -> 1 <= K -> K < len2 y ->
  _dereverberate_vectorized y G K Delta = raise ValueError.
Proof.
  intros -> HK HT. destruct G as [e0 e1 e2 e3 g].
  unfold shape4 in G_shape. simpl in G_shape.
  injection G_shape as -> -> -> ->.
  destruct K as [| K']; [lia |].
  unfold _dereverberate_vectorized, range.
  replace (0 + Datatypes.S K' - 0) with (Datatypes.S K') by lia.
  cbn [seq for_]. unfold vectorized_step at 1.
  cbn [ext0 ext1 ext2 ext3 get4].
  replace (0 - 0 <? Datatypes.S K') with true by reflexivity.
  rewrite !broadcast_same. cbn [bind ret].
  replace (Z.of_nat (Datatypes.S K') + Z.of_nat 0)%Z
    with (Z.of_nat (Datatypes.S K')) by lia.
  rewrite py_bound_nat.
  unfold fits. rewrite !Nat.eqb_refl. cbn [orb andb].
  replace (py_bound (len2 y) (- Z.of_nat 0)) with 0 by reflexivity.
  replace (0 - _ =? len2 y - Nat.min (Datatypes.S K') (len2 y)) with false
    by (symmetry; apply Nat.eqb_neq; lia).
  reflexivity.
Qed.

(** One pass of the loop at a positive delay. *)
Lemma vectorized_pass (tau : nat) (x : nat -> nat -> nat -> C) :
  1 <= Delta -> K + Delta <= len2 y -> Delta <= tau < Delta + K ->
  exists x1,
    vectorized_step y G K Delta tau x = ret x1 /\
    forall l n t, l < len0 y -> n < len1 y -> t < len2 y ->
      x1 l n t =
      if Delta + K <=? t
      then csub (x l n t) (prediction y G Delta l n t tau)
      else x l n t.
Proof.
  intros HD HT Htau. destruct G as [e0 e1 e2 e3 g].
  unfold shape4 in G_shape. simpl in G_shape.
  injection G_shape as -> -> -> ->.
  unfold vectorized_step. cbn [ext0 ext1 ext2 ext3 get4].
  replace (tau - Delta <? K) with true by (symmetry; apply Nat.ltb_lt; lia).
  rewrite !broadcast_same. cbn [bind ret].
  replace (Z.of_nat K + Z.of_nat Delta - Z.of_nat tau)%Z
    with (Z.of_nat (K + Delta - tau)) by lia.
  replace (Z.of_nat K + Z.of_nat Delta)%Z with (Z.of_nat (K + Delta)) by lia.
  rewrite !py_bound_nat. rewrite py_bound_from_end by lia.
  replace (Nat.min (K + Delta - tau) (len2 y)) with (K + Delta - tau) by lia.
  replace (Nat.min (K + Delta) (len2 y)) with (K + Delta) by lia.
  replace (len2 y - tau - (K + Delta - tau)) with (len2 y - (K + Delta)) by lia.
  unfold fits. rewrite !Nat.eqb_refl. cbn [orb andb].
  eexists. split; [reflexivity |].
  intros l n t Hl Hn Ht. cbv beta.
  replace (t <? len2 y) with true by (symmetry; apply Nat.ltb_lt; exact Ht).
  rewrite andb_true_r. rewrite (Nat.add_comm K Delta).
  destruct (Delta + K <=? t) eqn:E; [| reflexivity].
  apply Nat.leb_le in E. f_equal.
  unfold prediction. cbn [len1 get4 get3].
  rewrite !(bidx_lt _ _ Hl), !(bidx_lt _ _ Hn).
  rewrite (bidx_lt (len2 y - (Delta + K)) (t - (Delta + K))) by lia.
  apply csum_ext. intros m Hm.
  rewrite !(bidx_lt _ _ Hm).
  replace (Delta + K - tau + (t - (Delta + K))) with (t - tau) by lia.
  reflexivity.
Qed.

Lemma vectorized_loop (taus : list nat) (x : nat -> nat -> nat -> C) :
  1 <= Delta -> K + Delta <= len2 y ->
  (forall tau, In tau taus -> Delta <= tau < Delta + K) ->
  exists x',
    for_ taus (vectorized_step y G K Delta) x = ret x' /\
    forall l n t, l < len0 y -> n < len1 y -> t < len2 y ->
      x' l n t =
      if Delta + K <=? t
      then fold_left (fun acc tau => csub acc (prediction y G Delta l n t tau))
                     taus (x l n t)
      else x l n t.
Proof.
  intros HD HT. revert x.
  induction taus as [| tau taus IH]; intros x Htaus.
  - exists x. split; [reflexivity |]. intros l n t _ _ _.
    destruct (Delta + K <=? t); reflexivity.
  - destruct (vectorized_pass tau x HD HT) as (x1 & H1 & Hx1).
    { apply Htaus. left. reflexivity. }
    destruct (IH x1) as (x' & H' & Hx').
    { intros u Hu. apply Htaus. right. exact Hu. }
    exists x'. split.
    + cbn [for_]. rewrite H1. exact H'.
    + intros l n t Hl Hn Ht. rewrite (Hx' l n t Hl Hn Ht).
      rewrite (Hx1 l n t Hl Hn Ht).
      destruct (Delta + K <=? t); reflexivity.
Qed.

Lemma vectorized_returns :
  1 <= Delta -> K + Delta <= len2 y ->
  exists x,
    _dereverberate_vectorized y G K Delta = ret x /\
    shape3 x = shape3 y /\
    forall l n t, l < len0 y -> n < len1 y -> t < len2 y ->
      get3 x l n t =
      if Delta + K <=? t
      then fold_left (fun acc tau => csub acc (prediction y G Delta l n t tau))
                     (range Delta (Delta + K)) (get3 y l n t)
      else get3 y l n t.
Proof.
  intros HD HT. unfold _dereverberate_vectorized.
  destruct (vectorized_loop (range Delta (Delta + K)) (get3 y) HD HT)
    as (x & Hx & Hv).
  { intros tau Htau. apply in_range in Htau. exact Htau. }
  rewrite Hx. cbn [bind]. eexists. split; [reflexivity |].
  split; [reflexivity |]. exact Hv.
Qed.

End Vectorized_facts.

(** X7.  For a positive delay the two passes agree: on a signal of
    shape (L, N, T) with T >= K + Delta and a filter of shape
    (L, K, N, N) both return, with tensors of the same shape and the
    same entries. *)
Lemma dereverberate_vectorized_agree {S : Scalars} {LA : Linalg S}
    (y : array3 C) (G : array4 C) (K Delta : nat) :
  shape4 G = (len0 y, K, len1 y, len1 y) ->
  1 <= Delta -> K + Delta <= len2 y ->
  exists x x',
    _dereverberate y G K Delta = ret x /\
    _dereverberate_vectorized y G K Delta = ret x' /\
    agree3 x x'.
Proof.
  intros HG HD HT.
  destruct (dereverberate_returns y G K Delta HG) as (x & Hx & Hs & Hv).
  destruct (vectorized_returns y G K Delta HG HD HT) as (x' & Hx' & Hs' & Hv').
  exists x, x'. split; [exact Hx |]. split; [exact Hx' |].
  unfold shape3 in Hs, Hs'. injection Hs as E0 E1 E2. injection Hs' as E0' E1' E2'.
  unfold agree3. rewrite E0, E1, E2, E0', E1', E2'.
  repeat split.
  intros l n t Hl Hn Ht.
  rewrite (Hv l n t Hl Hn Ht), (Hv' l n t Hl Hn Ht). reflexivity.
Qed.

(** ** The settings file with a single declaration *)

Section Settings_facts.

Lemma scan_settings_plain (c : nat) (infile lines : list string) (m : bool) :
  (forall l, In l infile -> contains "num_mic = "%string l = false) ->
  scan_settings c infile lines m = (lines ++ infile, m).
Proof.
  revert lines. induction infile as [| line rest IH]; intros lines H; simpl.
  - rewrite app_nil_r. reflexivity.
  - rewrite (H line (or_introl eq_refl)).
    rewrite IH by (intros l Hl; apply H; right; exact Hl).
    rewrite <- app_assoc. reflexivity.
Qed.

(** X12.  What the pass does to a file with exactly one line that
    contains ["num_mic = "]: the file is kept when [str(c)] occurs
    anywhere in that line, otherwise that line alone is replaced. *)
Lemma dereverb_settings_single (c : nat) (pre post : list string)
    (line : string) :
  (forall l, In l pre -> contains "num_mic = "%string l = false) ->
  (forall l, In l post -> contains "num_mic = "%string l = false) ->
  contains "num_mic = "%string line = true ->
  dereverb_settings c (pre ++ line :: post) =
  if contains (str c) line
  then pre ++ line :: post
  else pre ++ declaration c :: post.
Proof.
  intros Hpre Hpost Hline. unfold dereverb_settings.
  assert (E : forall lines m,
             scan_settings c (pre ++ line :: post) lines m =
             if contains (str c) line
             then (lines ++ pre, m)
             else (lines ++ pre ++ declaration c :: post,
                   true)).
  { induction pre as [| p pre IH]; intros lines m; simpl.
    - rewrite Hline. destruct (contains (str c) line); simpl.
      + rewrite app_nil_r. reflexivity.
      + rewrite scan_settings_plain by exact Hpost.
        rewrite <- app_assoc. reflexivity.
    - rewrite (Hpre p (or_introl eq_refl)).
      rewrite IH by (intros l Hl; apply Hpre; right; exact Hl).
      destruct (contains (str c) line); rewrite <- app_assoc; reflexivity. }
  rewrite E. destruct (contains (str c) line); reflexivity.
Qed.

End Settings_facts.

(** * Further properties of the code *)

(** X1, at a three-frame signal with order 1, delay 1 and two passes. *)
Lemma wpe_leading_frames_zero_witness :
  let Y := GaussZ.of_rows 3 1 [[2]; [4]; [6]]%Z in
  exists X,
    wpe Y 1%Z 1 1 2 = ret X /\
    shape2 X = (3, 1) /\ get2 X 0 0 = (0, 0)%Z /\ get2 X 1 0 = (0, 0)%Z.
Proof.
  intros Y.
  destruct (wpe Y 1%Z 1 1 2) as [e | X] eqn:H; [discriminate H |].
  exists X. split; [reflexivity |].
  destruct (wpe_leading_frames_zero Y 1%Z 1 1 2 X H) as [Hs Hz].
  split; [exact Hs |]. split; apply Hz; lia.
Defined.

(** X6, at a three-frame signal with one tap. *)
Lemma vectorized_zero_delay_raises_witness :
  let y := GaussZ.of_bins 1 1 3 [[[3; 5; 7]]]%Z in
  let G := GaussZ.of_taps 1 1 1 [[[[1]]]]%Z in
  _dereverberate_vectorized y G 1 0 = raise ValueError.
Proof.
  intros y G.
  apply (vectorized_zero_delay_raises y G 1 0 eq_refl eq_refl); simpl; lia.
Defined.

(** X7, at a three-frame signal with one tap and delay one. *)
Lemma dereverberate_vectorized_agree_witness :
  let y := GaussZ.of_bins 1 1 3 [[[3; 5; 7]]]%Z in
  let G := GaussZ.of_taps 1 1 1 [[[[1]]]]%Z in
  exists x x',
    _dereverberate y G 1 1 = ret x /\
    _dereverberate_vectorized y G 1 1 = ret x' /\
    agree3 x x'.
Proof.
  intros y G.
  apply (dereverberate_vectorized_agree y G 1 1 eq_refl); simpl; lia.
Defined.

(** X12, at a three-line file that declares 3 microphones, for a signal
    with 2 channels. *)
Lemma dereverb_settings_single_witness :
  let pre := [("a = 1;" ++ nl)%string] in
  let line := ("num_mic = 3;" ++ nl)%string in
  let post := ["b = 2;"%string] in
  dereverb_settings 2 (pre ++ line :: post) =
  pre ++ ("num_mic = 2;" ++ nl)%string :: post.
Proof.
  intros pre line post.
  rewrite (dereverb_settings_single 2 pre post line).
  - reflexivity.
  - intros l [<- | []]. reflexivity.
  - intros l [<- | []]. reflexivity.
  - reflexivity.
Defined.

(** ** Single-channel [wpe]: what a pass computes and how it fails *)

Lemma for_raise_in {St : Type} (xs : list nat) (body : nat -> St -> result St)
    (s : St) (e : exn) :
  for_ xs body s = raise e ->
  exists i s0, In i xs /\ body i s0 = raise e.
Proof.
  revert s. induction xs as [| i xs IH]; intros s; simpl.
  - intros H. discriminate H.
  - destruct (body i s) as [e' | s1] eqn:Hb; simpl.
    + intros H. injection H as ->. exists i, s. split; [left; reflexivity | exact Hb].
    + intros H. destruct (IH s1 H) as (j & s0 & Hj & Hr).
      exists j, s0. split; [right; exact Hj | exact Hr].
Qed.

Lemma range_cons (a b : nat) : a < b -> range a b = a :: range (Datatypes.S a) b.
Proof.
  intros H. unfold range.
  replace (b - a) with (Datatypes.S (b - Datatypes.S a)) by lia. reflexivity.
Qed.

(** With [order >= 1] the windows that survive the cut are as many as
    the frames from [order + delay] on, so nothing is broadcast. *)
Lemma window_count (T order delay : nat) :
  1 <= order ->
  (if T <? order then 0 else (T - order) / (order - (order - 1)) + 1)
  - (delay + 1) = T - (order + delay).
Proof.
  intros Ho. replace (order - (order - 1)) with 1 by lia.
  rewrite Nat.div_1_r.
  destruct (T <? order) eqn:E; [apply Nat.ltb_lt in E | apply Nat.ltb_ge in E]; lia.
Qed.

Section WPE_pass.

Context {S : Scalars} {LA : Linalg S}.

Variables (Y : array2 C) (epsilon : R) (order delay : nat).

Hypothesis order_pos : 1 <= order.

(** A pass that returns has solved, for every bin, the system made of
    the correlation matrix and the cross-correlation vector of that bin,
    and has written the prediction error with the solutions. *)
Lemma wpe_iteration_form (st st' : (nat -> nat -> R) * (nat -> nat -> C)) :
  wpe_iteration Y epsilon order delay st = ret st' ->
  exists c : nat -> nat -> C,
    (forall f, f < cols Y ->
       exists sol,
         solve order (correlation_matrix Y order delay (fst st) f)
                     (cross_correlation_vector Y order delay (fst st) f)
         = Some sol /\
         forall d, c f d = sol d) /\
    forall t f, order + delay <= t < rows Y ->
      snd st' t f =
      csub (get2 Y t f)
           (csum order (fun b =>
              cmul (cconj (c f b)) (get2 Y (t - (order + delay) + b) f))).
Proof.
  unfold wpe_iteration, correlation_matrix, cross_correlation_vector.
  cbn [segment_axis fst snd]. cbv zeta.
  rewrite (window_count (rows Y) order delay order_pos).
  rewrite broadcast_same. cbn [bind ret].
  intros H. apply bind_ret_inv in H. destruct H as (rc & Hrc & H).
  rewrite Nat.eqb_refl in H. cbn [orb] in H. injection H as <-.
  exists rc. split.
  - intros f Hf.
    apply solve_rows in Hrc; [| apply range_nodup].
    destruct Hrc as [Hin _].
    destruct (Hin f) as (sol & Hsol & Hrow); [apply in_range; lia |].
    exists sol. split; [exact Hsol | exact Hrow].
  - intros t f [Ht1 Ht2]. cbn [snd].
    replace (order + delay <=? t) with true by (symmetry; apply Nat.leb_le; lia).
    replace (t <? rows Y) with true by (symmetry; apply Nat.ltb_lt; lia).
    cbn [andb].
    rewrite !(bidx_lt (rows Y - (order + delay)) (t - (order + delay))) by lia.
    replace (order + delay + (t - (order + delay))) with t by lia.
    f_equal. apply csum_ext. intros b Hb.
    replace (order - (order - 1)) with 1 by lia.
    rewrite Nat.mul_1_r. reflexivity.
Qed.

(** A pass fails only in [np.linalg.solve], on the system of a bin. *)
Lemma wpe_iteration_raises (st : (nat -> nat -> R) * (nat -> nat -> C))
    (e : exn) :
  wpe_iteration Y epsilon order delay st = raise e ->
  e = LinAlgError /\
  exists f, f < cols Y /\
    solve order (correlation_matrix Y order delay (fst st) f)
                (cross_correlation_vector Y order delay (fst st) f) = None.
Proof.
  unfold wpe_iteration, correlation_matrix, cross_correlation_vector.
  cbn [segment_axis fst snd]. cbv zeta.
  rewrite (window_count (rows Y) order delay order_pos).
  rewrite broadcast_same. cbn [bind ret].
  match goal with
  | |- bind ?m _ = _ -> _ => destruct m as [e' | rc] eqn:Hrc
  end; cbn [bind].
  - intros H. injection H as ->.
    apply for_raise_in in Hrc. destruct Hrc as (f & rc & Hin & Hf).
    apply in_range in Hin.
    destruct (solve order _ _) eqn:Hs in Hf; [discriminate Hf |].
    injection Hf as <-. split; [reflexivity |].
    exists f. split; [lia | exact Hs].
  - rewrite Nat.eqb_refl. cbn [orb]. intros H. discriminate H.
Qed.

(** Without regression target ([T <= order + delay]) no window is left:
    both sums are empty. *)
Lemma short_system_zero (ps : nat -> nat -> R) (f d e : nat) :
  rows Y <= order + delay ->
  correlation_matrix Y order delay ps f d e = c0 /\
  cross_correlation_vector Y order delay ps f d = c0.
Proof.
  intros HT. unfold correlation_matrix, cross_correlation_vector.
  cbn [segment_axis fst snd]. cbv zeta.
  rewrite (window_count (rows Y) order delay order_pos).
  replace (rows Y - (order + delay)) with 0 by lia.
  split; reflexivity.
Qed.

(** On such a signal a pass with at least one bin stops at the solver,
    if the solver rejects the all-zero system. *)
Lemma wpe_iteration_short (st : (nat -> nat -> R) * (nat -> nat -> C)) :
  rows Y <= order + delay ->
  1 <= cols Y ->
  solve order (fun _ _ => c0) (fun _ => c0) = None ->
  wpe_iteration Y epsilon order delay st = raise LinAlgError.
Proof.
  intros HT HF Hz. unfold wpe_iteration.
  cbn [segment_axis fst snd]. cbv zeta.
  rewrite (window_count (rows Y) order delay order_pos).
  replace (rows Y - (order + delay)) with 0 by lia.
  rewrite broadcast_same. cbn [bind ret].
  rewrite (range_cons 0 (cols Y)) by lia. cbn [for_].
  change (csum 0 ?f) with c0.
  rewrite Hz. reflexivity.
Qed.

(** Without bins the loop over the bins is empty and a pass returns. *)
Lemma wpe_iteration_no_bins (st : (nat -> nat -> R) * (nat -> nat -> C)) :
  cols Y = 0 ->
  exists st', wpe_iteration Y epsilon order delay st = ret st'.
Proof.
  intros HF. unfold wpe_iteration.
  cbn [segment_axis fst snd]. cbv zeta.
  rewrite (window_count (rows Y) order delay order_pos).
  rewrite broadcast_same. cbn [bind ret].
  rewrite HF. cbn [range Nat.sub seq for_ bind ret].
  rewrite Nat.eqb_refl. cbn [orb]. eexists. reflexivity.
Qed.

Lemma wpe_loop_no_bins (k : nat) :
  cols Y = 0 ->
  exists st, wpe_loop Y epsilon order delay k = ret st.
Proof.
  intros HF. induction k as [| k [st IH]].
  - eexists. reflexivity.
  - rewrite wpe_loop_succ, IH. cbn [bind].
    apply wpe_iteration_no_bins. exact HF.
Qed.

End WPE_pass.

(** C4 (as amended).  [wpe] has no check of the time length against
    [order + delay].  On a signal without regression target,
    [order <= T <= order + delay] with [order >= 1]: with no iteration,
    or with no frequency bin, [wpe] returns a tensor of the shape of the
    input; with at least one iteration and one bin no window is left,
    the correlation matrix and the cross-correlation vector computed in
    the first pass are all zero, and [wpe] raises the LinAlgError of
    [np.linalg.solve] (which rejects the all-zero system), not a shape
    error raised before the computation. *)
Theorem wpe_short_input {S : Scalars} {LA : Linalg S}
    (Y : array2 C) (epsilon : R) (order delay iterations : nat) :
  1 <= order -> order <= rows Y -> rows Y <= order + delay ->
  (iterations = 0 \/ cols Y = 0 ->
   exists X,
     wpe Y epsilon order delay iterations = ret X /\ shape2 X = shape2 Y) /\
  (forall ps f d e,
     correlation_matrix Y order delay ps f d e = c0 /\
     cross_correlation_vector Y order delay ps f d = c0) /\
  (1 <= iterations -> 1 <= cols Y ->
   solve order (fun _ _ => c0) (fun _ => c0) = None ->
   wpe Y epsilon order delay iterations = raise LinAlgError).
Proof.
  intros Ho _ HT. split; [| split].
  - intros [-> | HF].
    + eexists. split; reflexivity.
    + destruct (wpe_loop_no_bins Y epsilon order delay Ho iterations HF)
        as [st Hst].
      unfold wpe. rewrite Hst. cbn [bind ret].
      eexists. split; reflexivity.
  - intros ps f d e.
    exact (short_system_zero Y order delay Ho ps f d e HT).
  - intros Hi HF Hz. unfold wpe, wpe_loop.
    rewrite (range_cons 0 iterations) by lia. cbn [for_].
    rewrite (wpe_iteration_short Y epsilon order delay Ho _ HT HF Hz).
    reflexivity.
Qed.

(** C4, the amended claim at a 2 x 2 signal with order 1 and delay 1:
    the 1 x 1 system of the first pass is zero and the solver rejects
    it. *)
Lemma wpe_short_input_witness :
  let Y := GaussZ.of_rows 2 2 [[2; 1]; [4; 1]]%Z in
  wpe Y 1%Z 1 1 3 = raise LinAlgError /\
  correlation_matrix Y 1 1 (power_floor 1%Z (get2 Y)) 0 0 0 = (0, 0)%Z.
Proof.
  intros Y.
  destruct (wpe_short_input Y 1%Z 1 1 3) as (_ & Hz & Hr);
    [lia | simpl; lia | simpl; lia |].
  split.
  - apply Hr; [lia | simpl; lia | reflexivity].
  - exact (proj1 (Hz (power_floor 1%Z (get2 Y)) 0 0 0)).
Defined.

(** X2.  What [wpe] returns from frame [order + delay] on.  For
    [1 <= order <= T] and at least one iteration, the output at every
    time [t >= order + delay] and bin [f] is the input minus the
    prediction [sum_b conj(c[f, b]) * Y[t - order - delay + b, f]] from
    the [order] frames that end [delay + 1] frames before [t], where
    [c[f, :]] is what [np.linalg.solve] returned in the last pass for
    the correlation matrix and cross-correlation vector of bin [f],
    built from the power estimate the passes before it left. *)
Theorem wpe_prediction_form {S : Scalars} {LA : Linalg S}
    (Y : array2 C) (epsilon : R) (order delay n : nat) (X : array2 C) :
  1 <= order -> order <= rows Y ->
  wpe Y epsilon order delay (Datatypes.S n) = ret X ->
  exists (st : (nat -> nat -> R) * (nat -> nat -> C)) (c : nat -> nat -> C),
    wpe_loop Y epsilon order delay n = ret st /\
    (forall f, f < cols Y ->
       exists sol,
         solve order (correlation_matrix Y order delay (fst st) f)
                     (cross_correlation_vector Y order delay (fst st) f)
         = Some sol /\
         forall d, c f d = sol d) /\
    forall t f, order + delay <= t < rows Y ->
      get2 X t f =
      csub (get2 Y t f)
           (csum order (fun b =>
              cmul (cconj (c f b)) (get2 Y (t - (order + delay) + b) f))).
Proof.
  intros Ho _ H. unfold wpe in H.
  apply bind_ret_inv in H. destruct H as (st' & Hl & H). injection H as <-.
  rewrite wpe_loop_succ in Hl.
  apply bind_ret_inv in Hl. destruct Hl as (st & Hst & Hi).
  destruct (wpe_iteration_form Y epsilon order delay Ho st st' Hi)
    as (c & Hc & Hx).
  exists st, c. split; [exact Hst |]. split; [exact Hc | exact Hx].
Qed.

(** X2, at a two-frame signal with order 1 and delay 0: the system of
    the only bin is [1 c = 1], the coefficient is 1 and the last frame
    becomes 4 - 1 * 2. *)
Lemma wpe_prediction_form_witness :
  let Y := GaussZ.of_rows 2 1 [[2]; [4]]%Z in
  exists X, wpe Y 1%Z 1 0 1 = ret X /\ get2 X 1 0 = (2, 0)%Z.
Proof.
  intros Y.
  destruct (wpe Y 1%Z 1 0 1) as [e | X] eqn:H; [discriminate H |].
  exists X. split; [reflexivity |].
  destruct (wpe_prediction_form Y 1%Z 1 0 0 X) as (st & c & Hl & Hs & Hc);
    [lia | simpl; lia | exact H |].
  injection Hl as <-.
  destruct (Hs 0) as (sol & Hsol & Hrow); [simpl; lia |].
  rewrite (Hc 1 0) by (simpl; lia).
  unfold csum, csum_over. cbn [seq fold_left].
  rewrite Hrow.
  vm_compute in Hsol. injection Hsol as <-. reflexivity.
Defined.

(** X3.  How [wpe] fails.  For [1 <= order <= T] the only exception
    [wpe] raises is the LinAlgError of [np.linalg.solve]: some pass,
    entered from the state the passes before it left, hands the solver
    the correlation matrix and cross-correlation vector of some bin and
    the solver rejects them.  No shape or broadcasting error occurs. *)
Theorem wpe_raises_only_linalg {S : Scalars} {LA : Linalg S}
    (Y : array2 C) (epsilon : R) (order delay iterations : nat) (e : exn) :
  1 <= order -> order <= rows Y ->
  wpe Y epsilon order delay iterations = raise e ->
  e = LinAlgError /\
  exists k st f,
    k < iterations /\
    wpe_loop Y epsilon order delay k = ret st /\
    f < cols Y /\
    solve order (correlation_matrix Y order delay (fst st) f)
                (cross_correlation_vector Y order delay (fst st) f) = None.
Proof.
  intros Ho _ H.
  destruct (wpe_raise_pass Y epsilon order delay iterations e H)
    as (k & st & Hk & Hst & Hi).
  destruct (wpe_iteration_raises Y epsilon order delay Ho st e Hi)
    as (He & f & Hf & Hs).
  split; [exact He |]. exists k, st, f.
  split; [exact Hk |]. split; [exact Hst |]. split; [exact Hf | exact Hs].
Qed.

(** X3, at a silent two-frame signal with order 1 and delay 0: the
    1 x 1 correlation matrix is zero and the solver rejects it. *)
Lemma wpe_raises_only_linalg_witness :
  let Y := GaussZ.of_rows 2 1 [[0]; [0]]%Z in
  wpe Y 1%Z 1 0 2 = raise LinAlgError /\
  exists k st f,
    k < 2 /\ wpe_loop Y 1%Z 1 0 k = ret st /\ f < cols Y /\
    @solve _ GaussZ.linalg 1
      (correlation_matrix Y 1 0 (fst st) f)
      (cross_correlation_vector Y 1 0 (fst st) f) = None.
Proof.
  intros Y. split; [reflexivity |].
  apply (wpe_raises_only_linalg Y 1%Z 1 0 2 LinAlgError);
    [lia | simpl; lia | reflexivity].
Defined.

(** ** [multichannel_wpe]: which filter the result is made with *)

Lemma GaussZ_zero_laws : @zero_laws GaussZ.scalars.
Proof.
  split; [reflexivity |]. split; [| split; [reflexivity |]].
  - intros [a b]. reflexivity.
  - intros [a b]. simpl. unfold GaussZ.sub. simpl. f_equal; lia.
Qed.

Section Multichannel_signal.

Context {S : Scalars} {LA : Linalg S}.

Variables (Y : array3 C) (K Delta : nat).

(** The signal a pass hands on is the dereverberation of the input with
    the filter the pass started with. *)
Lemma multichannel_iteration_signal (G_hat : array4 C)
    (r : array4 C * array3 C) :
  multichannel_iteration Y K Delta G_hat = ret r ->
  _dereverberate Y G_hat K Delta = ret (snd r).
Proof.
  unfold multichannel_iteration. intros H.
  apply bind_ret_inv in H. destruct H as (x_hat & Hx & H).
  apply bind_ret_inv in H. destruct H as (_ & _ & H).
  apply bind_ret_inv in H. destruct H as (full & _ & H).
  apply bind_ret_inv in H. destruct H as (_ & _ & H).
  apply bind_ret_inv in H. destruct H as (psi_bar & _ & H).
  apply bind_ret_inv in H. destruct H as (_ & _ & H).
  apply bind_ret_inv in H. destruct H as (Tr & _ & H).
  apply bind_ret_inv in H. destruct H as (g_hat & _ & H).
  apply bind_ret_inv in H. destruct H as (_ & _ & H).
  injection H as <-. exact Hx.
Qed.

Lemma multichannel_wpe_last_pass (n : nat) (x : array3 C) :
  multichannel_wpe Y K Delta (Datatypes.S n) = ret x ->
  exists st r,
    multichannel_loop Y K Delta n = ret st /\
    multichannel_iteration Y K Delta (fst st) = ret r /\
    snd r = x.
Proof.
  unfold multichannel_wpe. intros H.
  apply bind_ret_inv in H. destruct H as (st' & Hl & H).
  rewrite multichannel_loop_succ in Hl.
  apply bind_ret_inv in Hl. destruct Hl as (st & Hst & Hl).
  apply bind_ret_inv in Hl. destruct Hl as (r & Hr & Hl).
  injection Hl as <-. cbn [snd] in H. injection H as <-.
  exists st, r. repeat split; assumption.
Qed.

Lemma csum_zero (n : nat) (f : nat -> C) :
  zero_laws -> (forall i, i < n -> f i = c0) -> csum n f = c0.
Proof.
  intros (_ & _ & Hadd & _) Hf. unfold csum, csum_over.
  assert (E : forall xs, (forall i, In i xs -> f i = c0) ->
              fold_left (fun acc i => cadd acc (f i)) xs c0 = c0).
  { induction xs as [| i xs IH]; intros Hxs; simpl; [reflexivity |].
    rewrite (Hxs i (or_introl eq_refl)). rewrite Hadd.
    apply IH. intros j Hj. apply Hxs. right. exact Hj. }
  apply E. intros i Hi. apply Hf. apply in_seq in Hi. lia.
Qed.

End Multichannel_signal.

(** X5.  The filter solved in the last pass is never applied: the tensor
    [multichannel_wpe] returns after [n + 1] iterations is
    [_dereverberate] of the input with the filter [G_hat] as it was after
    [n] iterations. *)
Theorem multichannel_wpe_uses_previous_filter {S : Scalars} {LA : Linalg S}
    (Y : array3 C) (K Delta n : nat) (x : array3 C) :
  multichannel_wpe Y K Delta (Datatypes.S n) = ret x ->
  exists st,
    multichannel_loop Y K Delta n = ret st /\
    _dereverberate Y (fst st) K Delta = ret x.
Proof.
  intros H.
  destruct (multichannel_wpe_last_pass Y K Delta n x H) as (st & r & Hst & Hr & <-).
  exists st. split; [exact Hst |].
  apply multichannel_iteration_signal. exact Hr.
Qed.

(** X5, at a three-frame signal after two iterations. *)
Lemma multichannel_wpe_uses_previous_filter_witness :
  let Y := GaussZ.of_bins 1 1 3 [[[2; 2; 2]]]%Z in
  exists x st,
    multichannel_wpe Y 1 1 2 = ret x /\
    multichannel_loop Y 1 1 1 = ret st /\
    _dereverberate Y (fst st) 1 1 = ret x.
Proof.
  intros Y.
  destruct (multichannel_wpe Y 1 1 2) as [e | x] eqn:H; [discriminate H |].
  destruct (multichannel_wpe_uses_previous_filter Y 1 1 1 x H) as (st & H1 & H2).
  exists x, st. split; [reflexivity |]. split; assumption.
Defined.

(** X4.  One iteration changes nothing: the first pass dereverberates
    with the all-zero filter, so when [multichannel_wpe] returns with
    [iterations = 1] its result has the shape and the entries of the
    input (in an arithmetic where zero absorbs products and is neutral
    for sums and differences). *)
Theorem multichannel_first_pass_identity {S : Scalars} {LA : Linalg S}
    (Y : array3 C) (K Delta : nat) (x : array3 C) :
  zero_laws ->
  multichannel_wpe Y K Delta 1 = ret x ->
  agree3 x Y.
Proof.
  intros Hz H.
  destruct (multichannel_wpe_last_pass Y K Delta 0 x H) as (st & r & Hst & Hr & <-).
  injection Hst as <-. cbn [fst] in Hr.
  apply multichannel_iteration_signal in Hr.
  destruct (dereverberate_returns Y
              (Array4 (len0 Y) K (len1 Y) (len1 Y) (fun _ _ _ _ => c0))
              K Delta eq_refl) as (x0 & Hx0 & Hs & Hv).
  rewrite Hr in Hx0. injection Hx0 as <-.
  unfold shape3 in Hs. injection Hs as E0 E1 E2.
  unfold agree3. rewrite E0, E1, E2. repeat split.
  intros l n t Hl Hn Ht. rewrite (Hv l n t Hl Hn Ht).
  destruct (Delta + K <=? t); [| reflexivity].
  assert (E : forall taus a,
            fold_left
              (fun acc tau =>
                 csub acc
                   (prediction Y
                      (Array4 (len0 Y) K (len1 Y) (len1 Y) (fun _ _ _ _ => c0))
                      Delta l n t tau)) taus a = a).
  { induction taus as [| tau taus IH]; intros a; simpl; [reflexivity |].
    rewrite IH. unfold prediction. cbn [get4].
    rewrite (csum_zero (len1 Y) _ Hz).
    - destruct Hz as (_ & _ & _ & Hsub). apply Hsub.
    - intros m _. destruct Hz as (Hconj & Hmul & _ & _).
      rewrite Hconj. apply Hmul. }
  apply E.
Qed.

(** X4, at a three-frame signal with one tap and delay one. *)
Lemma multichannel_first_pass_identity_witness :
  let Y := GaussZ.of_bins 1 1 3 [[[2; 4; 6]]]%Z in
  exists x, multichannel_wpe Y 1 1 1 = ret x /\ agree3 x Y.
Proof.
  intros Y.
  destruct (multichannel_wpe Y 1 1 1) as [e | x] eqn:H; [discriminate H |].
  exists x. split; [reflexivity |].
  exact (multichannel_first_pass_identity Y 1 1 x GaussZ_zero_laws H).
Defined.

(** ** The regressor tensor of [_get_crazy_matrix] *)

Section Overwrites.

Context {S : Scalars}.

(** A loop whose passes overwrite regions with the values of one and
    the same tensor overwrites the union of the regions. *)
Lemma for_overwrites (xs : list nat)
    (body : nat -> (nat -> nat -> nat -> nat -> C) ->
            result (nat -> nat -> nat -> nat -> C))
    (cov : nat -> nat -> nat -> nat -> bool)
    (val : nat -> nat -> nat -> nat -> C) :
  (forall i, In i xs -> overwrites (body i) (cov i) val) ->
  overwrites (for_ xs body)
             (fun m n p => existsb (fun i => cov i m n p) xs) val.
Proof.
  induction xs as [| i xs IH]; intros Hb psi psi' H l m n p; simpl in *.
  - injection H as <-. reflexivity.
  - apply bind_ret_inv in H. destruct H as (psi1 & H1 & H2).
    rewrite (IH (fun j Hj => Hb j (or_intror Hj)) psi1 psi' H2 l m n p).
    rewrite (Hb i (or_introl eq_refl) psi psi1 H1 l m n p).
    destruct (cov i m n p), (existsb (fun j => cov j m n p) xs); reflexivity.
Qed.

End Overwrites.

(** Row [N*N*k + N*n0 + n1] of the regressor stands for tap [k], output
    channel [n0] and input channel [n1]. *)
Lemma row_decode (N k n0 n1 : nat) :
  n0 < N -> n1 < N ->
  (N * N * k + N * n0 + n1) mod N = n1 /\
  (N * N * k + N * n0 + n1) / N mod N = n0 /\
  (N * N * k + N * n0 + n1) / (N * N) = k.
Proof.
  intros H0 H1.
  assert (E1 : (N * N * k + N * n0 + n1) / N = N * k + n0).
  { symmetry. apply (Nat.div_unique _ N (N * k + n0) n1); [exact H1 | lia]. }
  split; [| split].
  - symmetry. apply (Nat.mod_unique _ N (N * k + n0) n1); [exact H1 | lia].
  - rewrite E1. symmetry.
    apply (Nat.mod_unique _ N k n0); [exact H0 | lia].
  - symmetry. apply (Nat.div_unique _ (N * N) k (N * n0 + n1)); [nia | lia].
Qed.

Lemma py_index_inv (n : nat) (i : Z) (j : nat) :
  py_index n i = ret j ->
  j < n /\
  ((0 <= i)%Z -> j = Z.to_nat i) /\
  ((i < 0)%Z -> j = Z.to_nat (i + Z.of_nat n)).
Proof.
  intros H. split; [exact (py_index_lt n i j H) |].
  unfold py_index in H.
  destruct ((0 <=? i)%Z && (i <? Z.of_nat n)%Z) eqn:E1.
  - injection H as <-. apply andb_true_iff in E1. destruct E1 as [E1 _].
    apply Z.leb_le in E1. split; [reflexivity | lia].
  - destruct ((- Z.of_nat n <=? i)%Z && (i <? 0)%Z) eqn:E2; [| discriminate H].
    injection H as <-. apply andb_true_iff in E2. destruct E2 as [_ E2].
    apply Z.ltb_lt in E2. split; [lia | reflexivity].
Qed.

Lemma py_index_ok (n : nat) (i : Z) :
  (- Z.of_nat n <= i < Z.of_nat n)%Z -> exists j, py_index n i = ret j.
Proof.
  intros H. unfold py_index.
  destruct (0 <=? i)%Z eqn:E0.
  - replace (i <? Z.of_nat n)%Z with true by (symmetry; apply Z.ltb_lt; lia).
    eexists. reflexivity.
  - apply Z.leb_gt in E0. cbn [andb].
    replace (- Z.of_nat n <=? i)%Z with true by (symmetry; apply Z.leb_le; lia).
    replace (i <? 0)%Z with true by (symmetry; apply Z.ltb_lt; lia).
    eexists. reflexivity.
Qed.

Lemma for_returns {St : Type} (xs : list nat) (body : nat -> St -> result St) :
  (forall i s, In i xs -> exists s', body i s = ret s') ->
  forall s, exists s', for_ xs body s = ret s'.
Proof.
  induction xs as [| i xs IH]; intros Hb s; simpl.
  - exists s. reflexivity.
  - destruct (Hb i s (or_introl eq_refl)) as (s1 & H1). rewrite H1. simpl.
    apply IH. intros j s0 Hj. apply Hb. right. exact Hj.
Qed.

Section Crazy_matrix.

Context {S : Scalars}.

Variables (Y : array3 C) (K Delta : nat).

(** After the passes [t < k] the columns [p] with [p + Delta + K - 1 < k]
    hold their final value, whatever the wrapped writes of the first
    passes put elsewhere, and nothing outside the row is touched. *)
Lemma column_loop_prefix (T' n0 n1 tau k : nat)
    (psi psi' : nat -> nat -> nat -> nat -> C) :
  Delta <= tau < Delta + K ->
  column_loop Y K Delta T' n0 n1 tau (range 0 k) psi = ret psi' ->
  (forall l m n p,
     (m =? len1 Y * len1 Y * (tau - Delta) + len1 Y * n0 + n1)
     && (n =? n0) && (p <? T') = false ->
     psi' l m n p = psi l m n p) /\
  (forall l p,
     p + (Delta + K - 1) < k ->
     psi' l (len1 Y * len1 Y * (tau - Delta) + len1 Y * n0 + n1) n0 p =
     get3 Y l n1 (p + (Delta + K - 1) - tau)).
Proof.
  intros Htau. revert psi'. unfold column_loop.
  induction k as [| k IH]; intros psi' H.
  - injection H as <-. split; [reflexivity | intros; lia].
  - rewrite range_succ in H by lia. rewrite for_app in H.
    apply bind_ret_inv in H. destruct H as (psik & Hk & H).
    cbn [for_] in H. rewrite bind_ret_r in H.
    apply bind_ret_inv in H. destruct H as (src & Hsrc & H).
    apply bind_ret_inv in H. destruct H as (dst & Hdst & H).
    injection H as <-.
    destruct (IH psik Hk) as [Hout Hin].
    apply py_index_inv in Hsrc. destruct Hsrc as (_ & Hsrc & _).
    apply py_index_inv in Hdst. destruct Hdst as (Hdlt & Hdst & _).
    split.
    + intros l m n p Hc. rewrite <- (Hout l m n p Hc).
      destruct ((m =? _) && (n =? n0) && (p =? dst)) eqn:Hw; [| reflexivity].
      exfalso. apply andb_true_iff in Hw. destruct Hw as [Hw Hp].
      apply Nat.eqb_eq in Hp. subst p.
      rewrite Hw in Hc. cbn [andb] in Hc.
      apply Nat.ltb_ge in Hc. lia.
    + intros l p Hp. rewrite !Nat.eqb_refl. cbn [andb].
      destruct (p =? dst) eqn:Hpd.
      * apply Nat.eqb_eq in Hpd. subst p.
        destruct (Z_lt_le_dec
                    (Z.of_nat k - Z.of_nat Delta - Z.of_nat K + 1) 0)
          as [Hneg | Hpos].
        { exfalso. lia. }
        specialize (Hdst Hpos).
        assert (Hdk : dst + (Delta + K - 1) = k) by lia.
        rewrite Hsrc by lia. f_equal. lia.
      * apply Nat.eqb_neq in Hpd.
        apply Hin.
        destruct (Z_lt_le_dec
                    (Z.of_nat k - Z.of_nat Delta - Z.of_nat K + 1) 0)
          as [Hneg | Hpos]; [lia |].
        specialize (Hdst Hpos). lia.
Qed.

(** The whole loop over [t] fills the row with its final values. *)
Lemma column_loop_overwrites (n0 n1 tau : nat) :
  Delta <= tau < Delta + K -> n0 < len1 Y -> n1 < len1 Y ->
  Delta + K <= len2 Y + 1 ->
  overwrites
    (column_loop Y K Delta (len2 Y + 1 - (Delta + K)) n0 n1 tau
       (range 0 (len2 Y)))
    (fun m n p =>
       (m =? len1 Y * len1 Y * (tau - Delta) + len1 Y * n0 + n1)
       && (n =? n0) && (p <? len2 Y + 1 - (Delta + K)))
    (regressor_entry Y K).
Proof.
  intros Htau H0 H1 HT psi psi' H l m n p.
  destruct (column_loop_prefix _ n0 n1 tau (len2 Y) psi psi' Htau H)
    as [Hout Hin].
  destruct ((m =? _) && (n =? n0) && (p <? len2 Y + 1 - (Delta + K))) eqn:Hc.
  - apply andb_true_iff in Hc. destruct Hc as [Hc Hp].
    apply andb_true_iff in Hc. destruct Hc as [Hm Hn].
    apply Nat.eqb_eq in Hm. apply Nat.eqb_eq in Hn. apply Nat.ltb_lt in Hp.
    subst m n. rewrite Hin by lia.
    unfold regressor_entry.
    destruct (row_decode (len1 Y) (tau - Delta) n0 n1 H0 H1) as (E1 & _ & E3).
    rewrite E1, E3. f_equal. lia.
  - apply Hout. exact Hc.
Qed.

Lemma column_loop_returns (n0 n1 tau : nat)
    (psi : nat -> nat -> nat -> nat -> C) :
  Delta <= tau < Delta + K ->
  2 * (Delta + K) <= len2 Y + 2 ->
  exists psi',
    column_loop Y K Delta (len2 Y + 1 - (Delta + K)) n0 n1 tau
      (range 0 (len2 Y)) psi = ret psi'.
Proof.
  intros Htau HT. unfold column_loop. apply for_returns.
  intros t s Ht. apply in_range in Ht.
  destruct (py_index_ok (len2 Y) (Z.of_nat t - Z.of_nat tau)) as (src & Hs);
    [lia |].
  destruct (py_index_ok (len2 Y + 1 - (Delta + K))
              (Z.of_nat t - Z.of_nat Delta - Z.of_nat K + 1)) as (dst & Hd);
    [lia |].
  rewrite Hs. cbn [bind]. rewrite Hd. cbn [bind]. eexists. reflexivity.
Qed.

(** On a signal too short for its own wrap-around, the very first write
    addresses a column that does not exist. *)
Lemma crazy_matrix_short_raises :
  1 <= len1 Y -> 1 <= K -> 1 <= len2 Y ->
  Delta + K <= len2 Y + 1 ->
  len2 Y + 2 < 2 * (Delta + K) ->
  _get_crazy_matrix Y K Delta = raise IndexError.
Proof.
  intros HN HK HT Hp Hs. unfold _get_crazy_matrix.
  replace (Z.of_nat (len2 Y) - Z.of_nat Delta - Z.of_nat K + 1 <? 0)%Z
    with false by (symmetry; apply Z.ltb_ge; lia).
  rewrite (range_cons 0 (len1 Y)) by lia.
  rewrite (range_cons Delta (Delta + K)) by lia.
  rewrite (range_cons 0 (len2 Y)) by lia.
  cbn [for_].
  destruct (py_index (len2 Y) (Z.of_nat 0 - Z.of_nat Delta)) as [e | src] eqn:Hsrc.
  - unfold py_index in Hsrc.
    destruct (_ && _) in Hsrc; [discriminate Hsrc |].
    destruct (_ && _) in Hsrc; [discriminate Hsrc |].
    injection Hsrc as <-. reflexivity.
  - cbn [bind].
    replace (py_index _ (Z.of_nat 0 - Z.of_nat Delta - Z.of_nat K + 1))
      with (@raise nat IndexError); [reflexivity |].
    unfold py_index.
    replace (0 <=? Z.of_nat 0 - Z.of_nat Delta - Z.of_nat K + 1)%Z with false
      by (symmetry; apply Z.leb_gt; lia).
    cbn [andb].
    replace (- Z.of_nat (Z.to_nat (Z.of_nat (len2 Y) - Z.of_nat Delta
                                   - Z.of_nat K + 1))
             <=? Z.of_nat 0 - Z.of_nat Delta - Z.of_nat K + 1)%Z with false
      by (symmetry; apply Z.leb_gt; lia).
    reflexivity.
Qed.

End Crazy_matrix.

(** X8.  The regressor tensor.  On a signal of shape (L, N, T) with
    T >= 2 (Delta + K - 1), [_get_crazy_matrix] returns a tensor of shape
    (L, N*N*K, N, T - Delta - K + 1) whose row [N*N*k + N*n0 + n1], for
    tap [k], output channel [n0] and input channel [n1], holds at column
    [p] the observation [Y[l, n1, p + K - 1 - k]] in channel [n0] and
    zero in every other channel: the writes through negative, wrapped
    indices made by the first passes over [t] are all overwritten. *)
Theorem crazy_matrix_entries {S : Scalars} (Y : array3 C) (K Delta : nat) :
  2 * (Delta + K) <= len2 Y + 2 ->
  exists psi,
    _get_crazy_matrix Y K Delta = ret psi /\
    shape4 psi =
      (len0 Y, len1 Y * len1 Y * K, len1 Y, len2 Y + 1 - (Delta + K)) /\
    forall l k n0 n1 n p,
      k < K -> n0 < len1 Y -> n1 < len1 Y ->
      p < len2 Y + 1 - (Delta + K) ->
      get4 psi l (len1 Y * len1 Y * k + len1 Y * n0 + n1) n p =
      if n =? n0 then get3 Y l n1 (p + K - 1 - k) else c0.
Proof.
  intros HT.
  assert (HTp : K = 0 \/ Delta + K <= len2 Y + 1) by lia.
  unfold _get_crazy_matrix.
  replace (Z.of_nat (len2 Y) - Z.of_nat Delta - Z.of_nat K + 1 <? 0)%Z
    with false by (symmetry; apply Z.ltb_ge; lia).
  replace (Z.to_nat (Z.of_nat (len2 Y) - Z.of_nat Delta - Z.of_nat K + 1))
    with (len2 Y + 1 - (Delta + K)) by lia.
  set (T' := len2 Y + 1 - (Delta + K)).
  set (cov := fun n0 n1 tau m n p : nat =>
         (m =? len1 Y * len1 Y * (tau - Delta) + len1 Y * n0 + n1)
         && (n =? n0) && (p <? T')).
  set (nest := for_ (range 0 (len1 Y))
         (fun n0 psi_bar =>
            for_ (range 0 (len1 Y))
              (fun n1 psi_bar0 =>
                 for_ (range Delta (Delta + K))
                   (fun tau psi_bar1 =>
                      column_loop Y K Delta T' n0 n1 tau (range 0 (len2 Y))
                        psi_bar1)
                   psi_bar0)
              psi_bar)).
  assert (Hov : overwrites nest
            (fun m n p =>
               existsb (fun n0 =>
                 existsb (fun n1 =>
                   existsb (fun tau => cov n0 n1 tau m n p)
                           (range Delta (Delta + K)))
                   (range 0 (len1 Y)))
                 (range 0 (len1 Y)))
            (regressor_entry Y K)).
  { unfold nest.
    apply (for_overwrites (range 0 (len1 Y)) _
             (fun n0 m n p =>
                existsb (fun n1 =>
                  existsb (fun tau => cov n0 n1 tau m n p)
                          (range Delta (Delta + K)))
                  (range 0 (len1 Y)))).
    intros n0 Hn0. apply in_range in Hn0.
    apply (for_overwrites (range 0 (len1 Y)) _
             (fun n1 m n p =>
                existsb (fun tau => cov n0 n1 tau m n p)
                        (range Delta (Delta + K)))).
    intros n1 Hn1. apply in_range in Hn1.
    apply (for_overwrites (range Delta (Delta + K)) _
             (fun tau m n p => cov n0 n1 tau m n p)).
    intros tau Htau. apply in_range in Htau.
    apply column_loop_overwrites; lia. }
  assert (Hret : exists psi, nest (fun _ _ _ _ => c0) = ret psi).
  { unfold nest. apply for_returns. intros n0 s0 _.
    apply for_returns. intros n1 s1 _.
    apply for_returns. intros tau s2 Htau. apply in_range in Htau.
    apply column_loop_returns; [exact Htau | exact HT]. }
  destruct Hret as (psi & Hpsi).
  match goal with
  | |- exists psi0, bind ?m _ = _ /\ _ =>
      change m with (nest (fun _ _ _ _ => c0))
  end.
  rewrite Hpsi. cbn [bind].
  eexists. split; [reflexivity |]. split; [reflexivity |].
  intros l k n0 n1 n p Hk H0 H1 Hp. cbn [get4].
  rewrite (Hov _ psi Hpsi l _ n p).
  destruct (n =? n0) eqn:En.
  - apply Nat.eqb_eq in En. subst n.
    assert (Hc : existsb (fun a =>
               existsb (fun b =>
                 existsb (fun tau =>
                   cov a b tau (len1 Y * len1 Y * k + len1 Y * n0 + n1) n0 p)
                   (range Delta (Delta + K)))
                 (range 0 (len1 Y)))
               (range 0 (len1 Y)) = true).
    { apply existsb_exists. exists n0. split; [apply in_range; lia |].
      apply existsb_exists. exists n1. split; [apply in_range; lia |].
      apply existsb_exists. exists (Delta + k). split; [apply in_range; lia |].
      unfold cov. replace (Delta + k - Delta) with k by lia.
      rewrite !Nat.eqb_refl. cbn [andb]. apply Nat.ltb_lt. exact Hp. }
    rewrite Hc. unfold regressor_entry.
    destruct (row_decode (len1 Y) k n0 n1 H0 H1) as (E1 & _ & E3).
    rewrite E1, E3. f_equal. lia.
  - apply Nat.eqb_neq in En.
    destruct (existsb _ (range 0 (len1 Y))) eqn:Hc; [| reflexivity].
    exfalso.
    apply existsb_exists in Hc. destruct Hc as (a & Ha & Hc).
    apply existsb_exists in Hc. destruct Hc as (b & Hb & Hc).
    apply existsb_exists in Hc. destruct Hc as (tau & Htau & Hc).
    apply in_range in Ha. apply in_range in Hb.
    unfold cov in Hc.
    apply andb_true_iff in Hc. destruct Hc as [Hc _].
    apply andb_true_iff in Hc. destruct Hc as [Hm Hn].
    apply Nat.eqb_eq in Hm. apply Nat.eqb_eq in Hn. subst a.
    destruct (row_decode (len1 Y) k n0 n1 H0 H1) as (_ & E2 & _).
    destruct (row_decode (len1 Y) (tau - Delta) n b) as (_ & E2' & _);
      [lia | lia |].
    rewrite Hm in E2. rewrite E2' in E2. apply En. exact E2.
Qed.

(** X8, at a one-bin, one-channel signal of four frames with two taps
    and delay one: two columns, tap 0 reads one frame ahead of tap 1. *)
Lemma crazy_matrix_entries_witness :
  let Y := GaussZ.of_bins 1 1 4 [[[2; 3; 5; 7]]]%Z in
  exists psi,
    _get_crazy_matrix Y 2 1 = ret psi /\
    shape4 psi = (1, 2, 1, 2) /\
    get4 psi 0 0 0 0 = (3, 0)%Z /\ get4 psi 0 0 0 1 = (5, 0)%Z /\
    get4 psi 0 1 0 0 = (2, 0)%Z /\ get4 psi 0 1 0 1 = (3, 0)%Z.
Proof.
  intros Y.
  destruct (crazy_matrix_entries Y 2 1) as (psi & Hpsi & Hs & Hv);
    [simpl; lia |].
  exists psi. split; [exact Hpsi |]. split; [exact Hs |].
  repeat split.
  - exact (Hv 0 0 0 0 0 0 ltac:(lia) ltac:(simpl; lia) ltac:(simpl; lia)
              ltac:(simpl; lia)).
  - exact (Hv 0 0 0 0 0 1 ltac:(lia) ltac:(simpl; lia) ltac:(simpl; lia)
              ltac:(simpl; lia)).
  - exact (Hv 0 1 0 0 0 0 ltac:(lia) ltac:(simpl; lia) ltac:(simpl; lia)
              ltac:(simpl; lia)).
  - exact (Hv 0 1 0 0 0 1 ltac:(lia) ltac:(simpl; lia) ltac:(simpl; lia)
              ltac:(simpl; lia)).
Defined.

(** X9.  Short signals.  On a signal with at least one channel and one
    frame, with K >= 1 and T < 2 (Delta + K - 1), the first write of
    [_get_crazy_matrix] wraps below the first column and raises
    IndexError (when the tensor can be allocated at all, Delta + K <=
    T + 1); hence [multichannel_wpe] with one or more iterations never
    returns a tensor on such a signal. *)
Theorem multichannel_wpe_short_signal {S : Scalars} {LA : Linalg S}
    (Y : array3 C) (K Delta : nat) :
  1 <= len1 Y -> 1 <= K -> 1 <= len2 Y ->
  len2 Y + 2 < 2 * (Delta + K) ->
  (Delta + K <= len2 Y + 1 -> _get_crazy_matrix Y K Delta = raise IndexError) /\
  forall n x, multichannel_wpe Y K Delta (Datatypes.S n) <> ret x.
Proof.
  intros HN HK HT Hs. split.
  - intros Hp. apply crazy_matrix_short_raises; assumption.
  - intros n x H.
    destruct (multichannel_wpe_last_pass Y K Delta n x H) as (st & r & _ & Hr & _).
    unfold multichannel_iteration in Hr.
    apply bind_ret_inv in Hr. destruct Hr as (x_hat & _ & Hr).
    apply bind_ret_inv in Hr. destruct Hr as (_ & _ & Hr).
    apply bind_ret_inv in Hr. destruct Hr as (full & _ & Hr).
    apply bind_ret_inv in Hr. destruct Hr as (u & Ha & Hr).
    apply bind_ret_inv in Hr. destruct Hr as (psi_bar & Hpsi & _).
    unfold assert_ in Ha.
    match type of Ha with
    | (if ?b then _ else _) = _ => destruct b eqn:Hb
    end; [| discriminate Ha].
    apply andb_true_iff in Hb. destruct Hb as [_ Hb]. apply Z.eqb_eq in Hb.
    rewrite crazy_matrix_short_raises in Hpsi;
      [discriminate Hpsi | assumption .. | lia | assumption].
Qed.

(** X9, at a three-frame signal with two taps and delay one. *)
Lemma multichannel_wpe_short_signal_witness :
  let Y := GaussZ.of_bins 1 1 3 [[[2; 4; 6]]]%Z in
  _get_crazy_matrix Y 2 1 = raise IndexError /\
  forall x, multichannel_wpe Y 2 1 1 <> ret x.
Proof.
  intros Y.
  destruct (multichannel_wpe_short_signal Y 2 1) as [H1 H2];
    try (simpl; lia).
  split; [apply H1; simpl; lia | apply H2].
Defined.

(** ** The precision tensor of [_get_spatial_correlation_matrix_inverse] *)

Section Spatial_inverse.

Context {S : Scalars} {LA : Linalg S}.

(** The loop that inverts one matrix per bin: when it returns, every
    bin it visited holds the inverse of its own matrix. *)
Lemma inv_rows (N : nat) (c : nat -> nat -> nat -> C) (ls : list nat)
    (g0 g : nat -> nat -> nat -> C) :
  NoDup ls ->
  for_ ls
    (fun l inverse =>
       match inv N (c l) with
       | Some m => ret (fun l' a b => if l' =? l then m a b else inverse l' a b)
       | None => raise LinAlgError
       end) g0 = ret g ->
  forall l, In l ls ->
    exists M, inv N (c l) = Some M /\ forall a b, g l a b = M a b.
Proof.
  intros Hnd. revert g0.
  assert (Hkeep : forall ls g0 g,
    for_ ls
      (fun l inverse =>
         match inv N (c l) with
         | Some m => ret (fun l' a b => if l' =? l then m a b else inverse l' a b)
         | None => raise LinAlgError
         end) g0 = ret g ->
    forall l, ~ In l ls -> forall a b, g l a b = g0 l a b).
  { induction ls0 as [| l0 ls0 IH]; intros g0 g0' H l Hl a b; simpl in H.
    - injection H as <-. reflexivity.
    - destruct (inv N (c l0)) as [m |]; simpl in H; [| discriminate H].
      rewrite (IH _ _ H l) by (intros Hc; apply Hl; right; exact Hc).
      destruct (l =? l0) eqn:E; [| reflexivity].
      apply Nat.eqb_eq in E. subst l. exfalso. apply Hl. left. reflexivity. }
  induction Hnd as [| l0 ls Hnotin Hnd IH]; intros g0 H l Hl; simpl in H.
  - destruct Hl.
  - destruct (inv N (c l0)) as [m |] eqn:Hm; simpl in H; [| discriminate H].
    destruct Hl as [<- | Hl].
    + exists m. split; [exact Hm |]. intros a b.
      rewrite (Hkeep _ _ _ H l0 Hnotin a b). rewrite Nat.eqb_refl. reflexivity.
    + apply (IH _ H l Hl).
Qed.

(** A bin whose matrix cannot be inverted makes the loop raise. *)
Lemma inv_rows_raise (N : nat) (c : nat -> nat -> nat -> C) (ls : list nat)
    (g0 : nat -> nat -> nat -> C) (l : nat) :
  In l ls -> inv N (c l) = None ->
  for_ ls
    (fun l inverse =>
       match inv N (c l) with
       | Some m => ret (fun l' a b => if l' =? l then m a b else inverse l' a b)
       | None => raise LinAlgError
       end) g0 = raise LinAlgError.
Proof.
  revert g0. induction ls as [| l0 ls IH]; intros g0 Hl Hnone; simpl.
  - destruct Hl.
  - destruct (inv N (c l0)) as [m |] eqn:Hm; simpl; [| reflexivity].
    destruct Hl as [-> | Hl].
    + rewrite Hnone in Hm. discriminate Hm.
    + apply IH; assumption.
Qed.

End Spatial_inverse.

(** X10.  The precision tensor.  Once [scaled_full_correlation_matrix]
    has returned the correlation matrices and the power of a signal of
    shape (L, N, T): if [np.linalg.inv] rejects the matrix of some bin,
    [_get_spatial_correlation_matrix_inverse] raises LinAlgError; and
    whenever it returns, the result has shape (L, N, N, T) and its
    slice at bin [l] and time [t] is the inverse of the correlation
    matrix of bin [l] divided by the power at [(l, t)]. *)
Theorem spatial_inverse_form {S : Scalars} {LA : Linalg S}
    (y : array3 C) (corr : nat -> nat -> nat -> C) (power : nat -> nat -> R) :
  scaled_full_correlation_matrix (len0 y) (len1 y) (len2 y) (get3 y)
    = ret (corr, power) ->
  ((exists l, l < len0 y /\ inv (len1 y) (corr l) = None) ->
   _get_spatial_correlation_matrix_inverse y = raise LinAlgError) /\
  (forall r,
     _get_spatial_correlation_matrix_inverse y = ret r ->
     shape4 r = (len0 y, len1 y, len1 y, len2 y) /\
     forall l, l < len0 y ->
       exists M,
         inv (len1 y) (corr l) = Some M /\
         forall a b t, get4 r l a b t = cdivr (M a b) (power l t)).
Proof.
  intros Hsf. unfold _get_spatial_correlation_matrix_inverse.
  rewrite Hsf. cbn [bind ret fst snd]. split.
  - intros (l & Hl & Hnone).
    rewrite (inv_rows_raise (len1 y) corr (range 0 (len0 y)) _ l);
      [reflexivity | apply in_range; lia | exact Hnone].
  - intros r H. apply bind_ret_inv in H. destruct H as (g & Hg & H).
    injection H as <-. split; [reflexivity |].
    intros l Hl.
    destruct (inv_rows (len1 y) corr (range 0 (len0 y)) _ g
                (range_nodup 0 (len0 y)) Hg l) as (M & HM & Hrow);
      [apply in_range; lia |].
    exists M. split; [exact HM |].
    intros a b t. cbn [get4]. rewrite Hrow. reflexivity.
Qed.

(** X10, at a one-bin, one-channel signal of three frames. *)
Lemma spatial_inverse_form_witness :
  let y := GaussZ.of_bins 1 1 3 [[[2; 4; 6]]]%Z in
  exists r,
    _get_spatial_correlation_matrix_inverse y = ret r /\
    shape4 r = (1, 1, 1, 3) /\
    exists M,
      @inv _ GaussZ.linalg 1 (fun a b => if a =? b then (1, 0)%Z else (0, 0)%Z)
        = Some M /\
      forall a b t, get4 r 0 a b t = GaussZ.divr (M a b) 1%Z.
Proof.
  intros y.
  destruct (_get_spatial_correlation_matrix_inverse y) as [e | r] eqn:H;
    [discriminate H |].
  exists r. split; [reflexivity |].
  assert (Hsf : scaled_full_correlation_matrix (len0 y) (len1 y) (len2 y)
                  (get3 y)
                = ret (fun _ a b => if a =? b then (1, 0)%Z else (0, 0)%Z,
                       fun _ _ => 1%Z)) by reflexivity.
  destruct (spatial_inverse_form y _ _ Hsf) as [_ Hform].
  destruct (Hform r H) as [Hs Hv]. split; [exact Hs |].
  apply (Hv 0). simpl. lia.
Defined.

(** ** More on the settings file *)

Section Settings_more.

Lemma prefix_app (a b : string) : String.prefix a (a ++ b)%string = true.
Proof.
  induction a as [| ch a IH]; simpl; [destruct b; reflexivity |].
  destruct (ascii_dec ch ch) as [_ | Hne]; [exact IH | contradiction].
Qed.

Lemma contains_prefix (needle hay : string) :
  String.prefix needle hay = true -> contains needle hay = true.
Proof.
  intros H. destruct hay; simpl in *; rewrite H; reflexivity.
Qed.

Lemma contains_app (needle pre post : string) :
  contains needle (pre ++ needle ++ post)%string = true.
Proof.
  induction pre as [| ch pre IH].
  - cbn [String.append]. apply contains_prefix. apply prefix_app.
  - cbn [String.append contains]. rewrite IH. apply orb_true_r.
Qed.

Lemma declaration_declares (c : nat) :
  contains "num_mic = "%string (declaration c) = true /\
  contains (str c) (declaration c) = true.
Proof.
  unfold declaration. split.
  - apply (contains_app "num_mic = " "" (str c ++ ";" ++ nl)).
  - apply (contains_app (str c) "num_mic = " (";" ++ nl)).
Qed.

(** What the loop accumulates: lines of the input without
    ["num_mic = "] and declarations for [c], never more than it read. *)
Lemma scan_settings_out (c : nat) (infile lines : list string) (m : bool) :
  exists out,
    fst (scan_settings c infile lines m) = lines ++ out /\
    List.length out <= List.length infile /\
    Forall (settled c) out /\
    (forall line, In line out -> In line infile \/ line = declaration c).
Proof.
  revert lines m. induction infile as [| line rest IH]; intros lines m; simpl.
  - exists []. rewrite app_nil_r.
    split; [reflexivity |]. split; [simpl; lia |].
    split; [constructor | intros l []].
  - destruct (contains "num_mic = " line) eqn:Hnm.
    + destruct (contains (str c) line); simpl.
      * exists []. rewrite app_nil_r.
        split; [reflexivity |]. split; [simpl; lia |].
        split; [constructor | intros l []].
      * destruct (IH (lines ++ [declaration c]) true)
          as (out & E & Hlen & Hall & Hin).
        exists (declaration c :: out). rewrite E, <- app_assoc.
        split; [reflexivity |]. split; [simpl; lia |]. split.
        -- constructor; [right; reflexivity | exact Hall].
        -- intros l [<- | Hl]; [right; reflexivity |].
           destruct (Hin l Hl) as [H | H]; [left; right; exact H | right; exact H].
    + destruct (IH (lines ++ [line]) m) as (out & E & Hlen & Hall & Hin).
      exists (line :: out). rewrite E, <- app_assoc.
      split; [reflexivity |]. split; [simpl; lia |]. split.
      * constructor; [left; exact Hnm | exact Hall].
      * intros l [<- | Hl]; [left; left; reflexivity |].
        destruct (Hin l Hl) as [H | H]; [left; right; exact H | right; exact H].
Qed.

(** On a file of settled lines the loop never sets [modify_settings]. *)
Lemma scan_settings_settled (c : nat) (infile lines : list string) (m : bool) :
  Forall (settled c) infile ->
  snd (scan_settings c infile lines m) = m.
Proof.
  intros H. revert lines. induction H as [| line rest Hline Hrest IH];
    intros lines; simpl; [reflexivity |].
  destruct Hline as [Hnm | ->].
  - rewrite Hnm. apply IH.
  - destruct (declaration_declares c) as [H1 H2]. rewrite H1, H2.
    reflexivity.
Qed.

End Settings_more.

(** X13.  A settings file in which no line contains ["num_mic = "] is
    never rewritten: [dereverb] does not add a declaration. *)
Theorem dereverb_settings_no_declaration (c : nat) (file : list string) :
  (forall l, In l file -> contains "num_mic = "%string l = false) ->
  dereverb_settings c file = file.
Proof.
  intros H. unfold dereverb_settings.
  rewrite (scan_settings_plain c file [] false H). reflexivity.
Qed.

(** X13, at a two-line file. *)
Lemma dereverb_settings_no_declaration_witness :
  let file := [("a = 1;" ++ nl)%string; "b = 2;"%string] in
  dereverb_settings 4 file = file.
Proof.
  intros file. apply dereverb_settings_no_declaration.
  intros l [<- | [<- | []]]; reflexivity.
Defined.

(** X14.  The pass is idempotent: running [dereverb] again on the file
    it left, with the same number of channels, leaves the file as it
    is. *)
Theorem dereverb_settings_idempotent (c : nat) (file : list string) :
  dereverb_settings c (dereverb_settings c file) = dereverb_settings c file.
Proof.
  unfold dereverb_settings at 2 3.
  destruct (snd (scan_settings c file [] false)) eqn:Hm.
  - destruct (scan_settings_out c file [] false) as (out & E & _ & Hall & _).
    rewrite E. cbn [app]. unfold dereverb_settings.
    rewrite (scan_settings_settled c out [] false Hall). reflexivity.
  - unfold dereverb_settings. rewrite Hm. reflexivity.
Qed.

(** X16.  Whatever the file, it does not grow, and every line of the
    file [dereverb] leaves is a line of the file it read or the
    declaration ['num_mic = c;'] for the number of channels. *)
Theorem dereverb_settings_lines (c : nat) (file : list string) :
  List.length (dereverb_settings c file) <= List.length file /\
  forall line, In line (dereverb_settings c file) ->
    In line file \/ line = declaration c.
Proof.
  unfold dereverb_settings.
  destruct (scan_settings_out c file [] false) as (out & E & Hlen & _ & Hin).
  destruct (snd (scan_settings c file [] false)).
  - rewrite E. cbn [app]. split; [exact Hlen | exact Hin].
  - split; [lia | intros line Hl; left; exact Hl].
Qed.

(** X15.  A later line that contains both ["num_mic = "] and [str(c)]
    cuts the file: when an earlier declaration was replaced, the loop
    breaks at that later line and the file is written without it and
    without anything that followed it. *)
Theorem dereverb_settings_truncates (c : nat) (pre mid post : list string)
    (l1 l2 : string) :
  (forall l, In l pre -> contains "num_mic = "%string l = false) ->
  (forall l, In l mid -> contains "num_mic = "%string l = false) ->
  contains "num_mic = "%string l1 = true -> contains (str c) l1 = false ->
  contains "num_mic = "%string l2 = true -> contains (str c) l2 = true ->
  dereverb_settings c (pre ++ l1 :: mid ++ l2 :: post) =
  pre ++ declaration c :: mid.
Proof.
  intros Hpre Hmid H1 H1c H2 H2c. unfold dereverb_settings.
  assert (E : forall lines m,
            scan_settings c (pre ++ l1 :: mid ++ l2 :: post) lines m =
            (lines ++ pre ++ declaration c :: mid, true)).
  { assert (Emid : forall lines m,
              scan_settings c (mid ++ l2 :: post) lines m = (lines ++ mid, m)).
    { clear Hpre. induction mid as [| x mid' IH]; intros lines m; simpl.
      - rewrite H2, H2c. simpl. rewrite app_nil_r. reflexivity.
      - rewrite (Hmid x (or_introl eq_refl)).
        rewrite IH by (intros l Hl; apply Hmid; right; exact Hl).
        rewrite <- app_assoc. reflexivity. }
    induction pre as [| x pre' IH]; intros lines m; simpl.
    - rewrite H1, H1c. simpl. rewrite Emid. rewrite <- app_assoc. reflexivity.
    - rewrite (Hpre x (or_introl eq_refl)).
      rewrite IH by (intros l Hl; apply Hpre; right; exact Hl).
      rewrite <- app_assoc. reflexivity. }
  rewrite E. reflexivity.
Qed.

(** X15, at a file whose comment line mentions the channel count: the
    comment and the setting after it are lost. *)
Lemma dereverb_settings_truncates_witness :
  let l1 := ("num_mic = 3;" ++ nl)%string in
  let l2 := ("% num_mic = 2 for stereo" ++ nl)%string in
  let post := [("fs = 16000;" ++ nl)%string] in
  dereverb_settings 2 ([] ++ l1 :: [] ++ l2 :: post) = [] ++ [declaration 2].
Proof.
  intros l1 l2 post.
  apply (dereverb_settings_truncates 2 [] [] post l1 l2);
    try reflexivity; intros l [].
Defined.

(** ** Filterbank features *)

(** X17.  [fbank] and [logfbank] never return features: each of them
    reaches [get_filterbanks], whose first statement raises; when the
    preemphasis, the STFT and the spectrogram return, the exception is
    the AssertionError of [get_filterbanks], for every choice of the
    other arguments. *)
Theorem fbank_never_returns {E : FbankEnv}
    (time_signal : Signal) (sample_rate : Number)
    (window_length stft_shift number_of_filters stft_size : nat)
    (lowest_frequency : Number) (highest_frequency : option Number)
    (preemphasis_factor : Number) (window : Window) (denoise : bool) :
  (forall m,
     fbank time_signal sample_rate window_length stft_shift number_of_filters
       stft_size lowest_frequency highest_frequency preemphasis_factor window
       denoise <> ret m) /\
  (forall m,
     logfbank time_signal sample_rate window_length stft_shift
       number_of_filters stft_size lowest_frequency highest_frequency
       preemphasis_factor window denoise <> ret m) /\
  (forall s1 s2 sp,
     preemphasis_with_offset_compensation time_signal preemphasis_factor
       = ret s1 ->
     stft s1 stft_size stft_shift window window_length false = ret s2 ->
     stft_to_spectrogram s2 = ret sp ->
     fbank time_signal sample_rate window_length stft_shift number_of_filters
       stft_size lowest_frequency highest_frequency preemphasis_factor window
       denoise = raise AssertionError /\
     logfbank time_signal sample_rate window_length stft_shift
       number_of_filters stft_size lowest_frequency highest_frequency
       preemphasis_factor window denoise = raise AssertionError).
Proof.
  assert (Hf : forall m,
    fbank time_signal sample_rate window_length stft_shift number_of_filters
      stft_size lowest_frequency highest_frequency preemphasis_factor window
      denoise <> ret m).
  { intros m H. unfold fbank in H.
    apply bind_ret_inv in H. destruct H as (s1 & _ & H).
    apply bind_ret_inv in H. destruct H as (s2 & _ & H).
    apply bind_ret_inv in H. destruct H as (sp & _ & H).
    apply bind_ret_inv in H. destruct H as (fb & Hfb & _).
    discriminate Hfb. }
  split; [exact Hf |]. split.
  - intros m H. unfold logfbank in H.
    apply bind_ret_inv in H. destruct H as (feature & H & _).
    exact (Hf feature H).
  - intros s1 s2 sp H1 H2 H3.
    assert (E1 : fbank time_signal sample_rate window_length stft_shift
                   number_of_filters stft_size lowest_frequency
                   highest_frequency preemphasis_factor window denoise
                 = raise AssertionError).
    { unfold fbank. rewrite H1. cbn [bind ret]. rewrite H2. cbn [bind ret].
      rewrite H3. reflexivity. }
    split; [exact E1 |]. unfold logfbank. rewrite E1. reflexivity.
Qed.

(** X17, with the default sizes of the source. *)
Lemma fbank_never_returns_witness :
  @fbank PlainEnv.env 5%Z 16000%Z 400 160 23 512 0%Z None 97%Z tt false
    = raise AssertionError /\
  @logfbank PlainEnv.env 5%Z 16000%Z 400 160 23 512 0%Z None 97%Z tt false
    = raise AssertionError.
Proof.
  apply (proj2 (proj2 (@fbank_never_returns PlainEnv.env 5%Z 16000%Z 400 160
                         23 512 0%Z None 97%Z tt false)) 5%Z 5%Z 5%Z);
    reflexivity.
Defined.

(** ** Mel scale *)

Module Mel_facts.

Import Stdlib.Reals.Reals Stdlib.micromega.Lra.
Import Mel.
Local Open Scope R_scope.

Lemma ln10_pos : 0 < ln 10.
Proof. rewrite <- ln_1. apply ln_increasing; lra. Qed.

(** X18.  Over the real numbers, [mel2hz] undoes [hz2mel] on every
    frequency above -700 Hz (where the logarithm is defined). *)
Theorem mel2hz_hz2mel (hz : R) : -700 < hz -> mel2hz (hz2mel hz) = hz.
Proof.
  intros H. unfold mel2hz, hz2mel, Rpower.
  replace (2595 * (ln (1 + hz / 700) / ln 10) / 2595 * ln 10)
    with (ln (1 + hz / 700)).
  - rewrite exp_ln by lra. lra.
  - pose proof ln10_pos. field. lra.
Qed.

(** X18, at 1000 Hz. *)
Lemma mel2hz_hz2mel_witness : mel2hz (hz2mel 1000) = 1000.
Proof. apply mel2hz_hz2mel. lra. Defined.

(** X19.  Over the real numbers, [hz2mel] undoes [mel2hz] on every
    mel value. *)
Theorem hz2mel_mel2hz (mel : R) : hz2mel (mel2hz mel) = mel.
Proof.
  unfold mel2hz, hz2mel, Rpower.
  replace (1 + 700 * (exp (mel / 2595 * ln 10) - 1) / 700)
    with (exp (mel / 2595 * ln 10)) by lra.
  rewrite ln_exp. pose proof ln10_pos. field. lra.
Qed.

(** X20.  Over the real numbers, [hz2mel] maps 0 Hz to 0 mel and is
    strictly increasing above -700 Hz. *)
Theorem hz2mel_increasing (a b : R) :
  hz2mel 0 = 0 /\ (-700 < a -> a < b -> hz2mel a < hz2mel b).
Proof.
  split.
  - unfold hz2mel. replace (1 + 0 / 700) with 1 by lra. rewrite ln_1. lra.
  - intros Ha Hab. unfold hz2mel. pose proof ln10_pos.
    apply Rmult_lt_compat_l; [lra |].
    apply Rmult_lt_compat_r; [apply Rinv_0_lt_compat; lra |].
    apply ln_increasing; lra.
Qed.

(** X20, between 100 Hz and 200 Hz. *)
Lemma hz2mel_increasing_witness : hz2mel 100 < hz2mel 200.
Proof. apply (proj2 (hz2mel_increasing 100 200)); lra. Defined.

End Mel_facts.

(** ** [Dispatcher] *)

Section Dispatcher_facts.

Local Open Scope string_scope.

Lemma prefix_app_r (n x q : string) :
  String.prefix n x = true -> String.prefix n (x ++ q) = true.
Proof.
  revert n. induction x as [| ch x IH]; intros n H.
  - destruct n; [| discriminate H]. destruct q; reflexivity.
  - destruct n as [| a n]; [reflexivity |]. simpl in *.
    destruct (ascii_dec a ch); [apply IH; exact H | discriminate H].
Qed.

Lemma contains_app_r (n x q : string) :
  contains n x = true -> contains n (x ++ q) = true.
Proof.
  induction x as [| ch x IH]; intros H.
  - apply contains_prefix. simpl in H. rewrite orb_false_r in H.
    apply (prefix_app_r n "" q H).
  - cbn [contains] in H. apply orb_true_iff in H. destruct H as [H | H].
    + apply contains_prefix. apply (prefix_app_r n (String ch x) q H).
    + cbn [String.append contains]. rewrite (IH H). apply orb_true_r.
Qed.

Lemma contains_app_l (n p x : string) :
  contains n x = true -> contains n (p ++ x) = true.
Proof.
  intros H. induction p as [| ch p IH]; [exact H |].
  cbn [String.append contains]. rewrite IH. apply orb_true_r.
Qed.

Lemma contains_refl (n : string) : contains n n = true.
Proof.
  apply contains_prefix. induction n as [| ch n IH]; [reflexivity |].
  simpl. destruct (ascii_dec ch ch); [exact IH | contradiction].
Qed.

Lemma contains_concat (sep k : string) (ks : list string) :
  In k ks -> contains k (String.concat sep ks) = true.
Proof.
  induction ks as [| x ks IH]; intros H; [destruct H |].
  destruct ks as [| y ks].
  - destruct H as [<- | []]. apply contains_refl.
  - change (String.concat sep (x :: y :: ks))
      with (x ++ sep ++ String.concat sep (y :: ks)).
    destruct H as [<- | H].
    + apply contains_app_r. apply contains_refl.
    + apply contains_app_l. apply contains_app_l. apply IH. exact H.
Qed.

Context {V : Type}.

Variable repr : string -> string.

Lemma dict_getitem_none (d : @dict V) (item : string) :
  dict_getitem d item = None <-> ~ In item (keys d).
Proof.
  induction d as [| [k v] d IH]; simpl.
  - split; [intros _ [] | reflexivity].
  - destruct (String.eqb_spec k item) as [-> | Hne].
    + split; [discriminate | intros H; exfalso; apply H; left; reflexivity].
    + rewrite IH. split.
      * intros H [Hk | Hin]; [apply Hne; exact Hk | apply H; exact Hin].
      * intros H Hin. apply H. right. exact Hin.
Qed.

Lemma dict_getitem_in (d : @dict V) (item : string) (v : V) :
  NoDup (keys d) -> In (item, v) d -> dict_getitem d item = Some v.
Proof.
  induction d as [| [k w] d IH]; simpl; intros Hnd Hin; [destruct Hin |].
  inversion Hnd as [| ? ? Hnotin Hnd']; subst.
  destruct Hin as [Heq | Hin].
  - injection Heq as -> ->. rewrite String.eqb_refl. reflexivity.
  - destruct (String.eqb_spec k item) as [-> | Hne].
    + exfalso. apply Hnotin. apply (in_map fst) in Hin. exact Hin.
    + apply IH; assumption.
Qed.

(** X21.  Lookup in a [Dispatcher].  For an item stored in the dict,
    [__getitem__] returns its value; for any other item it raises
    KeyError with a message that contains the [repr] of the item and
    the [repr] of every key the dict holds. *)
Theorem Dispatcher_getitem_spec (d : @dict V) (item : string) :
  NoDup (keys d) ->
  (forall v, In (item, v) d -> Dispatcher_getitem repr d item = inr v) /\
  (~ In item (keys d) ->
   exists message,
     Dispatcher_getitem repr d item = inl (KeyError message) /\
     contains (repr item) message = true /\
     forall k, In k (keys d) -> contains (repr k) message = true).
Proof.
  intros Hnd. split.
  - intros v Hin. unfold Dispatcher_getitem.
    rewrite (dict_getitem_in d item v Hnd Hin). reflexivity.
  - intros Hnot. unfold Dispatcher_getitem.
    rewrite (proj2 (dict_getitem_none d item) Hnot).
    eexists. split; [reflexivity |]. split.
    + apply (contains_app (repr item) "Invalid option ").
    + intros k Hk.
      apply (contains_app_l _ "Invalid option ").
      apply contains_app_l. apply (contains_app_l _ ". Possible keys are ").
      apply contains_app_r. unfold keys_repr.
      apply (contains_app_l _ "dict_keys([").
      apply contains_app_r. apply contains_concat.
      apply in_map. exact Hk.
Qed.

End Dispatcher_facts.

(** X21, at a dispatcher with two options. *)
Lemma Dispatcher_getitem_spec_witness :
  let d := [("mean", 1); ("sum", 2)]%string in
  let quote := fun k => ("'" ++ k ++ "'")%string in
  Dispatcher_getitem quote d "sum"%string = inr 2 /\
  Dispatcher_getitem quote d "max"%string =
    inl (KeyError
           "Invalid option 'max'. Possible keys are dict_keys(['mean', 'sum']).").
Proof.
  intros d quote.
  assert (Hnd : NoDup (keys d)).
  { repeat constructor; simpl; intuition discriminate. }
  destruct (Dispatcher_getitem_spec quote d "sum" Hnd) as [Hin _].
  split; [apply Hin; right; left; reflexivity | reflexivity].
Defined.

(** ** The assertions of [multichannel_wpe] *)

Lemma py_index_raise (n : nat) (i : Z) (e : exn) :
  py_index n i = raise e -> e = IndexError.
Proof.
  unfold py_index.
  destruct (_ && _); [discriminate |].
  destruct (_ && _); [discriminate |].
  intros H. injection H as <-. reflexivity.
Qed.

Lemma broadcast_raise (a b : nat) (e : exn) :
  broadcast a b = raise e -> e = ValueError.
Proof.
  unfold broadcast.
  destruct (a =? b); [discriminate |].
  destruct (a =? 1); [discriminate |].
  destruct (b =? 1); [discriminate |].
  intros H. injection H as <-. reflexivity.
Qed.

Section Multichannel_errors.

Context {S : Scalars} {LA : Linalg S}.

Lemma dereverberate_raises (y : array3 C) (G : array4 C) (K Delta : nat)
    (e : exn) :
  _dereverberate y G K Delta = raise e -> e = IndexError \/ e = ValueError.
Proof.
  unfold _dereverberate. intros H.
  destruct (for_ (range 0 (len0 y)) _ _) as [e' | x] eqn:Hl;
    cbn [bind] in H; [| discriminate H].
  injection H as ->.
  apply for_raise_in in Hl. destruct Hl as (l & x0 & _ & Hl).
  apply for_raise_in in Hl. destruct Hl as (t & x1 & _ & Hl).
  apply for_raise_in in Hl. destruct Hl as (tau & x2 & _ & Hl).
  unfold tap_prediction in Hl.
  destruct (_ && _) in Hl; [| injection Hl as <-; left; reflexivity].
  destruct (_ =? _) in Hl; [| injection Hl as <-; right; reflexivity].
  cbn [bind ret] in Hl. unfold isub_frame in Hl.
  destruct (_ || _) in Hl; [discriminate Hl |].
  injection Hl as <-. right. reflexivity.
Qed.

Lemma dereverberate_shape (y : array3 C) (G : array4 C) (K Delta : nat)
    (x : array3 C) :
  _dereverberate y G K Delta = ret x -> shape3 x = shape3 y.
Proof.
  unfold _dereverberate. intros H.
  apply bind_ret_inv in H. destruct H as (x0 & _ & H).
  injection H as <-. reflexivity.
Qed.

Lemma spatial_inverse_raises (y : array3 C) (e : exn) :
  _get_spatial_correlation_matrix_inverse y = raise e ->
  scaled_full_correlation_matrix (len0 y) (len1 y) (len2 y) (get3 y) = raise e
  \/ e = LinAlgError.
Proof.
  unfold _get_spatial_correlation_matrix_inverse. intros H.
  destruct (scaled_full_correlation_matrix _ _ _ _) as [e' | cp];
    cbn [bind] in H.
  - left. injection H as ->. reflexivity.
  - right.
    destruct (for_ (range 0 (len0 y)) _ _) as [e' | g] eqn:Hl;
      cbn [bind] in H; [| discriminate H].
    injection H as ->.
    apply for_raise_in in Hl. destruct Hl as (l & g0 & _ & Hl).
    destruct (inv _ _) in Hl; [discriminate Hl |].
    injection Hl as <-. reflexivity.
Qed.

Lemma spatial_inverse_shape (y : array3 C) (r : array4 C) :
  _get_spatial_correlation_matrix_inverse y = ret r ->
  shape4 r = (len0 y, len1 y, len1 y, len2 y).
Proof.
  unfold _get_spatial_correlation_matrix_inverse. intros H.
  apply bind_ret_inv in H. destruct H as (cp & _ & H).
  apply bind_ret_inv in H. destruct H as (g & _ & H).
  injection H as <-. reflexivity.
Qed.

Lemma crazy_matrix_raises (Y : array3 C) (K Delta : nat) (e : exn) :
  _get_crazy_matrix Y K Delta = raise e -> e = ValueError \/ e = IndexError.
Proof.
  unfold _get_crazy_matrix. intros H.
  destruct (_ <? 0)%Z in H; [injection H as <-; left; reflexivity |].
  destruct (for_ (range 0 (len1 Y)) _ _) as [e' | psi] eqn:Hl;
    cbn [bind] in H; [| discriminate H].
  injection H as ->. right.
  apply for_raise_in in Hl. destruct Hl as (n0 & p0 & _ & Hl).
  apply for_raise_in in Hl. destruct Hl as (n1 & p1 & _ & Hl).
  apply for_raise_in in Hl. destruct Hl as (tau & p2 & _ & Hl).
  apply for_raise_in in Hl. destruct Hl as (t & p3 & _ & Hl).
  destruct (py_index (len2 Y) _) as [e' | src] eqn:Hs in Hl; cbn [bind] in Hl.
  - injection Hl as <-. apply (py_index_raise _ _ _ Hs).
  - destruct (py_index _ _) as [e' | dst] eqn:Hd in Hl; cbn [bind] in Hl;
      [| discriminate Hl].
    injection Hl as <-. apply (py_index_raise _ _ _ Hd).
Qed.

Lemma crazy_matrix_shape (Y : array3 C) (K Delta : nat) (psi : array4 C) :
  _get_crazy_matrix Y K Delta = ret psi ->
  shape4 psi =
    (len0 Y, len1 Y * len1 Y * K, len1 Y,
     Z.to_nat (Z.of_nat (len2 Y) - Z.of_nat Delta - Z.of_nat K + 1)).
Proof.
  unfold _get_crazy_matrix. intros H.
  destruct (_ <? 0)%Z in H; [discriminate H |].
  apply bind_ret_inv in H. destruct H as (p & _ & H).
  injection H as <-. reflexivity.
Qed.

Lemma shape4_eqb_refl (a : nat * nat * nat * nat) : shape4_eqb a a = true.
Proof.
  destruct a as [[[a0 a1] a2] a3]. unfold shape4_eqb.
  rewrite !Nat.eqb_refl. reflexivity.
Qed.

Lemma shape3_eqb_refl (a : nat * nat * nat) : shape3_eqb a a = true.
Proof.
  destruct a as [[a0 a1] a2]. unfold shape3_eqb.
  rewrite !Nat.eqb_refl. reflexivity.
Qed.

End Multichannel_errors.

(** X11.  Of the [assert] statements in the loop of [multichannel_wpe]
    only the one on the shape of [Lambda_hat_inverse] (line 199) can
    fail, and it fails only for degenerate parameters: if a pass raises
    AssertionError (and [scaled_full_correlation_matrix] did not raise
    it itself), then [T - Delta - K + 1] is negative or larger than
    [T], that is [Delta + K > T + 1] or [Delta + K = 0]. *)
Theorem multichannel_assertion {S : Scalars} {LA : Linalg S}
    (Y : array3 C) (K Delta : nat) (G_hat : array4 C) :
  (forall L N T x, scaled_full_correlation_matrix L N T x <> raise AssertionError) ->
  multichannel_iteration Y K Delta G_hat = raise AssertionError ->
  len2 Y + 1 < Delta + K \/ Delta + K = 0.
Proof.
  intros Hsf H. unfold multichannel_iteration in H.
  destruct (_dereverberate Y G_hat K Delta) as [e | x_hat] eqn:Hx;
    cbn [bind] in H.
  { injection H as ->. apply dereverberate_raises in Hx.
    destruct Hx; discriminate. }
  rewrite (dereverberate_shape _ _ _ _ _ Hx) in H.
  unfold shape3 in H at 1. rewrite shape3_eqb_refl in H.
  cbn [assert_ bind ret] in H.
  destruct (_get_spatial_correlation_matrix_inverse x_hat) as [e | full] eqn:Hf;
    cbn [bind] in H.
  { injection H as ->. apply spatial_inverse_raises in Hf.
    destruct Hf as [Hf | Hf]; [exfalso; exact (Hsf _ _ _ _ Hf) | discriminate Hf]. }
  apply spatial_inverse_shape in Hf.
  apply dereverberate_shape in Hx.
  unfold shape3 in Hx. injection Hx as E0 E1 E2.
  unfold shape4 in Hf. injection Hf as F0 F1 F2 F3.
  rewrite E0, E1, E2 in *.
  unfold shape4 in H. cbn [ext0 ext1 ext2 ext3] in H.
  rewrite F0, F1, F2, F3 in H. rewrite shape4_eqb_refl in H.
  cbn [andb] in H.
  destruct (Z.of_nat (py_bound (len2 Y)
              (Z.of_nat (len2 Y) - Z.of_nat Delta - Z.of_nat K + 1))
            =? Z.of_nat (len2 Y) - Z.of_nat Delta - Z.of_nat K + 1)%Z eqn:Ha.
  2:{ apply Z.eqb_neq in Ha. unfold py_bound in Ha.
      destruct (_ <? 0)%Z eqn:Hn in Ha.
      - apply Z.ltb_lt in Hn. left. lia.
      - apply Z.ltb_ge in Hn. lia. }
  exfalso. apply Z.eqb_eq in Ha.
  cbn [assert_ bind ret] in H.
  destruct (_get_crazy_matrix Y K Delta) as [e | psi_bar] eqn:Hp;
    cbn [bind] in H.
  { injection H as ->. apply crazy_matrix_raises in Hp.
    destruct Hp; discriminate. }
  apply crazy_matrix_shape in Hp.
  unfold shape4 in Hp. injection Hp as P0 P1 P2 P3.
  assert (Hb' : Z.to_nat (Z.of_nat (len2 Y) - Z.of_nat Delta - Z.of_nat K + 1)
                = py_bound (len2 Y)
                    (Z.of_nat (len2 Y) - Z.of_nat Delta - Z.of_nat K + 1))
    by lia.
  rewrite Hb' in P3.
  rewrite P0, P1, P2, P3 in H.
  rewrite shape4_eqb_refl in H. cbn [assert_ bind ret] in H.
  destruct (broadcast _ _) as [e | Tr] eqn:Hb in H; cbn [bind] in H.
  { injection H as ->. apply broadcast_raise in Hb. discriminate Hb. }
  destruct (for_ (range 0 (len0 Y)) _ _) as [e | g_hat] eqn:Hg in H;
    cbn [bind] in H.
  { injection H as ->.
    apply for_raise_in in Hg. destruct Hg as (l & g0 & _ & Hg).
    destruct (solve _ _ _) in Hg; discriminate Hg. }
  unfold shape4 in H. cbn [ext0 ext1 ext2 ext3] in H.
  rewrite shape4_eqb_refl in H. discriminate H.
Qed.

(** X11, at a two-frame signal with three taps and delay one. *)
Lemma multichannel_assertion_witness :
  let Y := GaussZ.of_bins 1 1 2 [[[2; 4]]]%Z in
  let G := GaussZ.of_taps 1 3 1 [[[[0]]; [[0]]; [[0]]]]%Z in
  multichannel_iteration Y 3 1 G = raise AssertionError /\
  (len2 Y + 1 < 1 + 3 \/ 1 + 3 = 0).
Proof.
  intros Y G. split; [reflexivity |].
  apply (multichannel_assertion Y 3 1 G); [| reflexivity].
  intros L N T x H. discriminate H.
Defined.

(** ** The filter of [multichannel_wpe] after a pass *)

Lemma assert_true (b : bool) (u : unit) : assert_ b = ret u -> b = true.
Proof.
  destruct b; [reflexivity | intros H; discriminate H].
Qed.

Section Multichannel_filter.

Context {S : Scalars} {LA : Linalg S}.

Variables (Y : array3 C) (K Delta : nat).

(** A pass that returns has dereverberated the observation with the
    filter it was given, and hands on a filter of shape (L, K, N, N)
    whose entries are all read from the solutions of the systems
    [R_hat[l]], [r_hat[l]] it built from that signal. *)
Lemma multichannel_iteration_filter (G_hat : array4 C)
    (r : array4 C * array3 C) :
  multichannel_iteration Y K Delta G_hat = ret r ->
  _dereverberate Y G_hat K Delta = ret (snd r) /\
  shape4 (fst r) = (len0 Y, K, len1 Y, len1 Y) /\
  exists full psi_bar,
    _get_spatial_correlation_matrix_inverse (snd r) = ret full /\
    _get_crazy_matrix Y K Delta = ret psi_bar /\
    forall l, l < len0 Y ->
      exists sol,
        solve (len1 Y * len1 Y * K)
              (R_hat Y K Delta full psi_bar l)
              (r_hat Y K Delta full psi_bar l) = Some sol /\
        forall k a c, get4 (fst r) l k a c = sol ((a * len1 Y + c) * K + k).
Proof.
  unfold multichannel_iteration. intros H.
  apply bind_ret_inv in H. destruct H as (x_hat & Hx & H).
  apply bind_ret_inv in H. destruct H as (u1 & _ & H).
  apply bind_ret_inv in H. destruct H as (full & Hf & H).
  apply bind_ret_inv in H. destruct H as (u2 & Ha & H).
  apply bind_ret_inv in H. destruct H as (psi_bar & Hp & H).
  apply bind_ret_inv in H. destruct H as (u3 & _ & H).
  apply bind_ret_inv in H. destruct H as (Tr & Hb & H).
  apply bind_ret_inv in H. destruct H as (g_hat & Hg & H).
  apply bind_ret_inv in H. destruct H as (u4 & _ & H).
  injection H as <-. cbn [fst snd].
  split; [exact Hx |]. split; [reflexivity |].
  exists full, psi_bar. split; [exact Hf |]. split; [exact Hp |].
  assert (F3 : ext3 full = len2 Y).
  { pose proof (spatial_inverse_shape _ _ Hf) as Hs.
    pose proof (dereverberate_shape _ _ _ _ _ Hx) as Hs'.
    unfold shape4 in Hs. unfold shape3 in Hs'.
    injection Hs as _ _ _ Hs. injection Hs' as _ _ Hs'. congruence. }
  rewrite F3 in Ha, Hb, Hg.
  apply assert_true in Ha. apply andb_prop in Ha. destruct Ha as [_ Ha].
  apply Z.eqb_eq in Ha.
  assert (HT : len2 Y - py_bound (len2 Y) (Z.of_nat K + Z.of_nat Delta - 1)
               = py_bound (len2 Y)
                   (Z.of_nat (len2 Y) - Z.of_nat Delta - Z.of_nat K + 1)).
  { revert Ha. unfold py_bound.
    destruct (Z.of_nat (len2 Y) - Z.of_nat Delta - Z.of_nat K + 1 <? 0)%Z eqn:E1;
      [apply Z.ltb_lt in E1 | apply Z.ltb_ge in E1]; [lia |].
    destruct (Z.of_nat K + Z.of_nat Delta - 1 <? 0)%Z eqn:E2;
      [apply Z.ltb_lt in E2 | apply Z.ltb_ge in E2]; lia. }
  rewrite HT in Hb. rewrite broadcast_same in Hb. injection Hb as <-.
  intros l Hl.
  apply (solve_rows (len1 Y * len1 Y * K)
           (R_hat Y K Delta full psi_bar) (r_hat Y K Delta full psi_bar))
    in Hg; [| apply range_nodup].
  destruct Hg as [Hin _].
  destruct (Hin l) as (sol & Hsol & Hrow); [apply in_range; lia |].
  exists sol. split; [exact Hsol |].
  intros k a c. apply Hrow.
Qed.

End Multichannel_filter.

(** C6.  Filter shape.  After any number [k] of passes of the loop of
    [multichannel_wpe] on a signal of shape (L, N, T), the filter
    [G_hat] has shape (L, K, N, N); and after a pass ([k >= 1]) it is a
    new tensor: the pass dereverberated the observation with the filter
    of the passes before ([_dereverberate] only reads it), built the
    systems [R_hat[l]], [r_hat[l]] from that signal, and every entry of
    the new filter in bin [l] is read from the solution
    [np.linalg.solve] returned for that system in this pass; no entry
    is kept from the filter the pass started with. *)
Theorem multichannel_filter_shape {S : Scalars} {LA : Linalg S}
    (Y : array3 C) (K Delta k : nat)
    (st : array4 C * option (array3 C)) :
  multichannel_loop Y K Delta k = ret st ->
  shape4 (fst st) = (len0 Y, K, len1 Y, len1 Y) /\
  (1 <= k ->
   exists (st0 : array4 C * option (array3 C)) (x_hat : array3 C)
          (full psi_bar : array4 C),
     multichannel_loop Y K Delta (k - 1) = ret st0 /\
     _dereverberate Y (fst st0) K Delta = ret x_hat /\
     snd st = Some x_hat /\
     _get_spatial_correlation_matrix_inverse x_hat = ret full /\
     _get_crazy_matrix Y K Delta = ret psi_bar /\
     forall l, l < len0 Y ->
       exists sol,
         solve (len1 Y * len1 Y * K)
               (R_hat Y K Delta full psi_bar l)
               (r_hat Y K Delta full psi_bar l) = Some sol /\
         forall k' a c,
           get4 (fst st) l k' a c = sol ((a * len1 Y + c) * K + k')).
Proof.
  destruct k as [| k]; intros H.
  - injection H as <-. split; [reflexivity | lia].
  - rewrite multichannel_loop_succ in H.
    apply bind_ret_inv in H. destruct H as (st0 & Hst0 & H).
    apply bind_ret_inv in H. destruct H as (r & Hr & H).
    injection H as <-. cbn [fst snd].
    apply multichannel_iteration_filter in Hr.
    destruct Hr as (Hx & Hs & full & psi_bar & Hf & Hp & Hfresh).
    split; [exact Hs |]. intros _.
    exists st0, (snd r), full, psi_bar.
    replace (Datatypes.S k - 1) with k by lia.
    split; [exact Hst0 |]. split; [exact Hx |]. split; [reflexivity |].
    split; [exact Hf |]. split; [exact Hp | exact Hfresh].
Qed.

(** C6, at a one-bin, one-channel signal of three frames, one tap and
    delay one, after two passes: the system of the second pass is
    [8 g = 8] and the only entry of the filter is its solution. *)
Lemma multichannel_filter_shape_witness :
  let Y := GaussZ.of_bins 1 1 3 [[[2; 2; 2]]]%Z in
  exists st,
    multichannel_loop Y 1 1 2 = ret st /\
    shape4 (fst st) = (1, 1, 1, 1) /\
    get4 (fst st) 0 0 0 0 = (1, 0)%Z.
Proof.
  intros Y.
  destruct (multichannel_loop Y 1 1 2) as [e | st] eqn:H; [discriminate H |].
  exists st. split; [reflexivity |].
  destruct (multichannel_filter_shape Y 1 1 2 st H) as [Hs Hfresh].
  split; [exact Hs |].
  destruct Hfresh as (st0 & x_hat & full & psi_bar & H0 & Hx & _ & Hf & Hp & Hl);
    [lia |].
  destruct (Hl 0) as (sol & Hsol & Hrow); [simpl; lia |].
  rewrite Hrow. clear Hl Hrow.
  vm_compute in H0. injection H0 as <-.
  vm_compute in Hx. injection Hx as <-.
  vm_compute in Hf. injection Hf as <-.
  vm_compute in Hp. injection Hp as <-.
  vm_compute in Hsol. injection Hsol as <-. reflexivity.
Defined.
